(** * NetKet Monte Carlo expectation core: sampler, kernels, expectation driver

    Shallow embedding of
      - [netket/sampler/autoreg.py]   (batch_choice, ARDirectSampler, _sample_chain)
      - [netket/vqs/mc/kernels.py]    (local-value kernels and their chunked variants)
      - [netket/vqs/mc/common.py]     (check_hilbert)
      - [netket/vqs/mc/mc_state/expect.py] (get_configs, get_fun, expect, _expect)

    Floating-point numbers are idealised: weights are exact rationals ([Q])
    in the sampler, and amplitudes are pairs of real numbers in the kernels. *)

From Stdlib Require Import String List Sorted Bool Arith ZArith QArith Reals Lia Lqa Lra.
Import ListNotations.

Local Open Scope nat_scope.

(** ** Python exceptions and fallible computations *)

Inductive exn : Type :=
| TypeError (msg : string)
| ValueError (msg : string)
| NotImplementedError (msg : string)
| IndexError (msg : string)
| AttributeError (msg : string)
| NotFoundLookupError (msg : string).

Inductive result (A : Type) : Type :=
| Ok (a : A)
| Raise (e : exn).

Arguments Ok {A} a.
Arguments Raise {A} e.

Definition bind {A B : Type} (m : result A) (k : A -> result B) : result B :=
  match m with
  | Ok a => k a
  | Raise e => Raise e
  end.

Notation "x <- m ;; k" := (bind m (fun x => k))
  (at level 61, m at next level, right associativity).

(** ** Small array helpers shared by the modules *)

(** [jnp.sum] over an array of booleans counts the [True] cells. *)
Fixpoint bool_sum (l : list bool) : nat :=
  match l with
  | [] => 0
  | b :: t => (if b then 1 else 0) + bool_sum t
  end.

(** [enumerate]: pair every row with its position. *)
Fixpoint enumerate_from {A : Type} (i : nat) (l : list A) : list (nat * A) :=
  match l with
  | [] => []
  | x :: t => (i, x) :: enumerate_from (S i) t
  end.

Definition enumerate {A : Type} (l : list A) : list (nat * A) := enumerate_from 0 l.

(** * The autoregressive direct sampler ([netket/sampler/autoreg.py]) *)

Module Autoreg.

Local Open Scope Q_scope.

(** [x > y] on array cells. *)
Definition Qgtb (x y : Q) : bool := negb (Qle_bool x y).

(** [row.cumsum()]: running sums, left to right. *)
Fixpoint cumsum_from (acc : Q) (row : list Q) : list Q :=
  match row with
  | [] => []
  | w :: t => (acc + w) :: cumsum_from (acc + w) t
  end.

Definition cumsum (row : list Q) : list Q := cumsum_from 0 row.

(** [row[-1:]]: the slice holding the last cell (empty for an empty row). *)
Fixpoint last_slice (row : list Q) : list Q :=
  match row with
  | [] => []
  | [c] => [c]
  | _ :: t => last_slice t
  end.

(** [r > row] where [r] has one cell (broadcast along the row) or none. *)
Definition gt_broadcast (r : list Q) (row : list Q) : list bool :=
  match r with
  | [] => []
  | r0 :: _ => map (fun c => Qgtb r0 c) row
  end.

(** [a[i]], with the out-of-range index clamped as JAX does on reads. *)
Definition take {A : Type} (d : A) (a : list A) (i : nat) : A :=
  nth (Nat.min i (Nat.pred (length a))) a d.

Section BatchChoice.

(** PRNG keys and the value type of the category array. *)
Variable Key : Type.
Variable A : Type.

(** [jax.random.uniform(key, shape=(batch, 1))]: cell [i] of the column
    drawn from [key] for a batch of [batch] rows. *)
Variable uniform : Key -> nat -> nat -> Q.

(** Value read from a zero-size [a] (no cell to clamp to). *)
Variable dflt : A.

(** One row of [batch_choice]: lines 39-41 for a fixed leading index. *)
Definition row_r (u : Q) (cs : list Q) : list Q :=
  map (fun total => total * u) (last_slice cs).

Definition row_index (u : Q) (row : list Q) : nat :=
  let cs := cumsum row in
  bool_sum (gt_broadcast (row_r u cs) cs).

Definition choice_indices (key : Key) (p : list (list Q)) : list nat :=
  map (fun ir => row_index (uniform key (length p) (fst ir)) (snd ir))
      (enumerate p).

Definition batch_choice (key : Key) (a : list A) (p : list (list Q)) : list A :=
  let indices := choice_indices key p in
  let out := map (take dflt a) indices in
  out.

End BatchChoice.

(** Sum of the weights of a row. *)
Definition Qsum (row : list Q) : Q := fold_right Qplus 0 row.

(** All the weight of [row] sits in cell [j]. *)
Definition one_hot (row : list Q) (j : nat) : Prop :=
  (j < length row)%nat /\ 0 < nth j row 0 /\
  forall k, (k < length row)%nat -> k <> j -> nth k row 0 == 0.

(** The selection rule in the words of the specification: the first index
    whose cumulative sum exceeds the draw. *)
Fixpoint first_exceeding (r : Q) (cs : list Q) : option nat :=
  match cs with
  | [] => None
  | c :: t => if Qgtb c r then Some 0%nat
              else option_map S (first_exceeding r t)
  end.

(** ** ARDirectSampler *)

(** The values [machine_pow] can hold when [__post_init__] runs: a Python
    [int] (or [bool], a subclass of [int]), a [float], or a value traced by
    [jax.jit]. *)
Inductive pyvalue : Type :=
| PyInt (z : Z)
| PyBool (b : bool)
| PyFloat (q : Q)
| PyTraced.

(** [isinstance(v, int)] together with the integer it denotes. *)
Definition as_int (v : pyvalue) : option Z :=
  match v with
  | PyInt z => Some z
  | PyBool true => Some 1%Z
  | PyBool false => Some 0%Z
  | PyFloat _ => None
  | PyTraced => None
  end.

Record Hilbert : Type := mkHilbert {
  size : nat;
  local_states : list Q
}.

Record ARDirectSampler : Type := mkSampler {
  hilbert : Hilbert;
  n_chains_per_rank : nat;
  machine_pow : pyvalue
}.

Definition machine_pow_msg : string :=
  "ARDirectSampler.machine_pow should not be used. Modify the model `machine_pow` directly.".

Section PostInit.

(** [Sampler.__post_init__] of the parent class, defined outside this file. *)
Variable super_post_init : ARDirectSampler -> result unit.

Definition post_init (self : ARDirectSampler) : result unit :=
  _ <- super_post_init self ;;
  match as_int (machine_pow self) with
  | Some z => if negb (z =? 2)%Z then Raise (ValueError machine_pow_msg) else Ok tt
  | None => Ok tt
  end.

(** The dataclass constructor: build the object, then run [__post_init__]. *)
Definition new_sampler (h : Hilbert) (n_chains : nat) (mp : pyvalue)
  : result ARDirectSampler :=
  let self := mkSampler h n_chains mp in
  _ <- post_init self ;;
  Ok self.

End PostInit.

Record ARDirectSamplerState (Key : Type) : Type := mkState {
  key : Key
}.

Arguments mkState {Key} key.
Arguments key {Key} _.

(** [state.replace(key=new_key)] *)
Definition replace_key {Key : Type} (st : ARDirectSamplerState Key) (k : Key)
  : ARDirectSamplerState Key := mkState k.

(** [row.at[index].set(v)]; an index past the end leaves the row unchanged. *)
Fixpoint set_at (row : list Q) (index : nat) (v : Q) : list Q :=
  match row, index with
  | [], _ => []
  | _ :: t, O => v :: t
  | x :: t, S i => x :: set_at t i v
  end.

(** One new value per row of [σ], written at [index]. *)
Fixpoint set_column_rowwise (σ : list (list Q)) (index : nat) (new_σ : list Q)
  : result (list (list Q)) :=
  match σ, new_σ with
  | [], [] => Ok []
  | row :: σ', v :: vs =>
      rest <- set_column_rowwise σ' index vs ;;
      Ok (set_at row index v :: rest)
  | _, _ => Raise (ValueError "Incompatible shapes for broadcasting")
  end.

(** [σ.at[:, index].set(new_σ)]: a [new_σ] of length one is broadcast to
    every row, otherwise there must be one value per row. *)
Definition set_column (σ : list (list Q)) (index : nat) (new_σ : list Q)
  : result (list (list Q)) :=
  match new_σ with
  | [v] => Ok (map (fun row => set_at row index v) σ)
  | _ => set_column_rowwise σ index new_σ
  end.

(** [visited a s n row row']: [row'] is [row] with the cells [s, ..., s+n-1]
    overwritten by elements of [a] and the other cells untouched. *)
Definition visited (a : list Q) (s n : nat) (row row' : list Q) : Prop :=
  length row' = length row /\
  (forall j, ~ (s <= j < s + n)%nat -> nth j row' 0%Q = nth j row 0%Q) /\
  (a <> [] -> forall j, (s <= j < s + n)%nat -> (j < length row)%nat ->
                        In (nth j row' 0%Q) a).

(** The flax variable dictionary: the collections other than ["cache"], and
    the ["cache"] collection when the key is present. *)
Record Variables (Coll Cache : Type) : Type := mkVars {
  collections : Coll;
  cache_entry : option Cache
}.

Arguments mkVars {Coll Cache} collections cache_entry.
Arguments collections {Coll Cache} _.
Arguments cache_entry {Coll Cache} _.

Section SampleChain.

Variable Key : Type.
Variables Coll Cache : Type.

(** [jax.random.split(key, num)] and [jax.random.uniform]. *)
Variable split : Key -> nat -> list Key.
Variable uniform : Key -> nat -> nat -> Q.

(** The model: [model.init(key, σ, 0, method=model._conditional)] and
    [model.apply(variables, σ, index, method=model._conditional,
    mutable=["cache"])], which returns [p] and the mutated collections
    (with or without a ["cache"] entry). *)
Variable model_init : Key -> list (list Q) -> nat -> Variables Coll Cache.
Variable model_apply :
  Variables Coll Cache -> list (list Q) -> nat -> list (list Q) * option Cache.

(** Truth value of a cache object ([if cache:]); an empty dictionary is false. *)
Variable cache_truthy : Cache -> bool.

(** Whether two cache objects have the same tree structure, with leaves of
    the same shapes and types. *)
Variable cache_same_tree : Cache -> Cache -> bool.

(** [variables.pop("cache")] keeps the remaining collections. *)
Definition pop_cache (variables : Variables Coll Cache) : Variables Coll Cache :=
  match cache_entry variables with
  | Some _ => mkVars (collections variables) None
  | None => variables
  end.

Definition _init_cache (σ : list (list Q)) (k : Key) : option Cache :=
  cache_entry (model_init k σ 0).

Definition split2 (k : Key) : result (Key * Key) :=
  match split k 2 with
  | [a; b] => Ok (a, b)
  | _ => Raise (ValueError "not enough values to unpack")
  end.

Definition split3 (k : Key) : result (Key * Key * Key) :=
  match split k 3 with
  | [a; b; c] => Ok (a, b, c)
  | _ => Raise (ValueError "not enough values to unpack")
  end.

Definition Carry : Type := (list (list Q) * option Cache * Key)%type.

(** Body of the site loop; its per-step output is [None]. *)
Definition scan_fun (sampler : ARDirectSampler) (variables : Variables Coll Cache)
           (carry : Carry) (index : nat) : result (Carry * unit) :=
  let '(σ, cache, k) := carry in
  let _variables :=
    match cache with
    | Some c => if cache_truthy c
                then mkVars (collections variables) (Some c)
                else variables
    | None => variables
    end in
  ks <- split2 k ;;
  let '(new_key, k) := ks in
  let '(p, mutables) := model_apply _variables σ index in
  let cache := mutables in
  let local_states := local_states (hilbert sampler) in
  let new_σ := batch_choice Key Q uniform 0%Q k local_states p in
  σ <- set_column σ index new_σ ;;
  Ok ((σ, cache, new_key), tt).

(** The carry a scan body returns must have the tree structure, shapes and
    types of the carry it was given.  In the carry of [scan_fun] the buffer
    keeps its shape under [.at[].set] and the key is always a key, so the
    requirement bears on the cache: absent on both sides, or present on both
    with the same tree. *)
Definition same_cache (c c' : option Cache) : bool :=
  match c, c' with
  | None, None => true
  | Some a, Some b => cache_same_tree a b
  | _, _ => false
  end.

Definition carry_same (c c' : Carry) : bool :=
  same_cache (snd (fst c)) (snd (fst c')).

Definition carry_error {A : Type} : result A :=
  Raise (TypeError
    "scan body function carry input and carry output must have the same pytree structure").

(** The loop of [jax.lax.scan]: thread the carry, stack the outputs. *)
Fixpoint scan_steps {St I O : Type} (same : St -> St -> bool)
         (f : St -> I -> result (St * O)) (init : St) (xs : list I)
  : result (St * list O) :=
  match xs with
  | [] => Ok (init, [])
  | x :: xs' =>
      r <- f init x ;;
      let '(carry, y) := r in
      if same init carry then
        rs <- scan_steps same f carry xs' ;;
        let '(final, ys) := rs in
        Ok (final, y :: ys)
      else carry_error
  end.

(** [jax.lax.scan(f, init, xs)].  The body is traced on the initial carry
    even when [xs] is empty ([x0] stands for the abstract index it is traced
    with), so its errors and the carry requirement show in that case too. *)
Definition scan {St I O : Type} (same : St -> St -> bool)
           (f : St -> I -> result (St * O)) (init : St) (xs : list I) (x0 : I)
  : result (St * list O) :=
  match xs with
  | [] => r <- f init x0 ;;
          if same init (fst r) then Ok (init, []) else carry_error
  | _ :: _ => scan_steps same f init xs
  end.

(** [σ.reshape((chain_length, n_chains, size))] of a (batch, size) buffer:
    consecutive groups of [n_chains] rows. *)
Fixpoint group_rows {T : Type} (count width : nat) (rows : list T) : list (list T) :=
  match count with
  | O => []
  | S c => firstn width rows :: group_rows c width (skipn width rows)
  end.

Definition _sample_chain
           (sampler : ARDirectSampler) (variables : Variables Coll Cache)
           (state : ARDirectSamplerState Key) (chain_length : nat)
  : result (list (list (list Q)) * ARDirectSamplerState Key) :=
  let variables := pop_cache variables in
  ks <- split3 (key state) ;;
  let '(new_key, key_init, key_scan) := ks in
  let σ := repeat (repeat 0%Q (size (hilbert sampler)))
                  (chain_length * n_chains_per_rank sampler) in
  let cache := _init_cache σ key_init in
  let indices := seq 0 (size (hilbert sampler)) in
  r <- scan carry_same (scan_fun sampler variables) (σ, cache, key_scan) indices 0%nat ;;
  let '((σ, _, _), _) := r in
  let σ := group_rows chain_length (n_chains_per_rank sampler) σ in
  let new_state := replace_key state new_key in
  Ok (σ, new_state).

(** The other methods of [ARDirectSampler]. *)
Definition is_exact (sampler : ARDirectSampler) : bool := true.

Definition _init_state (sampler : ARDirectSampler) (variables : Variables Coll Cache)
           (k : Key) : ARDirectSamplerState Key := mkState k.

Definition _reset (sampler : ARDirectSampler) (variables : Variables Coll Cache)
           (state : ARDirectSamplerState Key) : ARDirectSamplerState Key := state.

(** [σ.squeeze(axis=0)]: drop a leading axis of length one. *)
Definition squeeze0 {T : Type} (σ : list T) : result T :=
  match σ with
  | [x] => Ok x
  | _ => Raise (ValueError
           "cannot select an axis to squeeze out which has size not equal to one")
  end.

Definition _sample_next
           (sampler : ARDirectSampler) (variables : Variables Coll Cache)
           (state : ARDirectSamplerState Key)
  : result (ARDirectSamplerState Key * list (list Q)) :=
  r <- _sample_chain sampler variables state 1 ;;
  let '(σ, new_state) := r in
  σ <- squeeze0 σ ;;
  Ok (new_state, σ).

End SampleChain.

(** Reference draws: every cell is 0, or every cell is 1/2. *)
Definition zero_draw (k : unit) (batch i : nat) : Q := 0.
Definition half_draw (k : unit) (batch i : nat) : Q := 1 # 2.

(** A reference generator: a key is the path of (count, position) pairs
    that leads to it from the seed. *)
Definition path_split (k : list (nat * nat)) (n : nat) : list (list (nat * nat)) :=
  map (fun i => (n, i) :: k) (seq 0 n).

(** A reference model without cache: two equally likely local states at
    every site. *)
Definition coin_model_init (k : list (nat * nat)) (σ : list (list Q)) (index : nat)
  : Variables unit unit := mkVars tt None.

Definition coin_model_apply (v : Variables unit unit) (σ : list (list Q)) (index : nat)
  : list (list Q) * option unit := (map (fun _ => [1; 1]) σ, None).

(** A reference model whose conditional is deterministic: all the weight on
    the second local state at every site. *)
Definition up_model_apply (v : Variables unit unit) (σ : list (list Q)) (index : nat)
  : list (list Q) * option unit := (map (fun _ => [0; 1]) σ, None).

Definition spin_half_sampler : ARDirectSampler :=
  mkSampler (mkHilbert 2 [-1; 1]) 1 (PyInt 2).

End Autoreg.

(** * Estimator kernels ([netket/vqs/mc/kernels.py]) *)

Module Kernels.

Local Open Scope R_scope.

(** Complex numbers as pairs (real part, imaginary part). *)
Definition C : Type := (R * R)%type.

Definition Cadd (x y : C) : C := (fst x + fst y, snd x + snd y).
Definition Csub (x y : C) : C := (fst x - fst y, snd x - snd y).
Definition Cmul (x y : C) : C :=
  (fst x * fst y - snd x * snd y, fst x * snd y + snd x * fst y).
Definition Cexp (z : C) : C := (exp (fst z) * cos (snd z), exp (fst z) * sin (snd z)).
Definition Cabs (z : C) : R := sqrt (fst z * fst z + snd z * snd z).

(** [jnp.sum] of a 1-D complex array. *)
Definition Csum (l : list C) : C := fold_right Cadd (0, 0) l.

(** A 0-D array carries its dtype: real or complex. *)
Inductive scalar : Type :=
| FloatVal (r : R)
| ComplexVal (z : C).

Definition jnp_abs (v : scalar) : scalar :=
  match v with
  | FloatVal r => FloatVal (Rabs r)
  | ComplexVal z => FloatVal (Cabs z)
  end.

(** [v ** 2] *)
Definition pow2 (v : scalar) : scalar :=
  match v with
  | FloatVal r => FloatVal (r ^ 2)
  | ComplexVal z => ComplexVal (Cmul z z)
  end.

Fixpoint map2 {A B D : Type} (f : A -> B -> D) (x : list A) (y : list B) : list D :=
  match x, y with
  | a :: x', b :: y' => f a b :: map2 f x' y'
  | _, _ => []
  end.

(** A binary operation on two arrays along one axis, with NumPy broadcasting:
    equal lengths pair up, a length-1 axis is stretched, anything else is an
    error. *)
Definition broadcast2 {A B D : Type} (f : A -> B -> D) (x : list A) (y : list B)
  : result (list D) :=
  if (length x =? length y)%nat then Ok (map2 f x y)
  else match x, y with
       | [a], _ => Ok (map (f a) y)
       | _, [b] => Ok (map (fun a => f a b) x)
       | _, _ => Raise (ValueError "Incompatible shapes for broadcasting")
       end.

Fixpoint sequence {A : Type} (l : list (result A)) : result (list A) :=
  match l with
  | [] => Ok []
  | m :: t => a <- m ;; rest <- sequence t ;; Ok (a :: rest)
  end.

(** Regroup a flat array after the row lengths of [like]
    ([flat.reshape(like.shape[:-1])]). *)
Fixpoint regroup {T U : Type} (like : list (list U)) (flat : list T) : list (list T) :=
  match like with
  | [] => []
  | r :: rs => firstn (length r) flat :: regroup rs (skipn (length r) flat)
  end.

(** The second positional argument [σp] of the chunked kernel is whatever the
    caller passes: an array, or (as [local_value_op_op_cost_chunked] does) a
    function object. *)
Inductive pyobject (T : Type) : Type :=
| Array (a : T)
| Function.

Arguments Array {T} a.
Arguments Function {T}.

(** Keyword arguments of a call, in call order. *)
Definition kwargs : Type := list (string * option nat).

(** Binding of the keyword arguments of a function whose only keyword
    parameter is [chunk_size=None]. *)
Fixpoint bind_chunk_size (fname : string) (kw : kwargs) : result (option nat) :=
  match kw with
  | [] => Ok None
  | (name, v) :: rest =>
      if String.eqb name "chunk_size"
      then (_ <- bind_chunk_size fname rest ;; Ok v)
      else Raise (TypeError (fname ++ "() got an unexpected keyword argument '"
                                   ++ name ++ "'"))
  end.

Section Kernels.

(** Parameter packs and the entries of a configuration. *)
Variables Pars X : Type.

(** A log-amplitude function [logpsi(pars, σ)].  Applied to one
    configuration it gives one amplitude; applied to a stack of
    configurations it gives the amplitudes row by row. *)
Definition LogPsi : Type := Pars -> list X -> C.

Definition local_value_kernel (logpsi : LogPsi) (pars : Pars)
           (σ : list X) (σp : list (list X)) (mel : list C) : result scalar :=
  let logpsi_σp := map (logpsi pars) σp in
  let logpsi_σ := logpsi pars σ in
  prods <- broadcast2 Cmul mel (map (fun l => Cexp (Csub l logpsi_σ)) logpsi_σp) ;;
  Ok (ComplexVal (Csum prods)).

(** The local value in the words of the specification:
    the sum over [k] of [mel_k * exp(logψ(σp_k) - logψ(σ))]. *)
Definition local_value_sum (logpsi : LogPsi) (pars : Pars)
           (σ : list X) (σp : list (list X)) (mel : list C) : C :=
  Csum (map (fun k => Cmul (nth k mel (0, 0))
                           (Cexp (Csub (logpsi pars (nth k σp []))
                                       (logpsi pars σ))))
            (seq 0 (length σp))).

Definition local_value_squared_kernel (logpsi : LogPsi) (pars : Pars)
           (σ : list X) (σp : list (list X)) (mel : list C) : result scalar :=
  v <- local_value_kernel logpsi pars σ σp mel ;;
  Ok (pow2 (jnp_abs v)).

Definition local_value_op_op_cost (logpsi : LogPsi) (pars : Pars)
           (σ : list X) (σp : list (list X)) (mel : list C) : result scalar :=
  let σ_σp := map (fun σp_k => σp_k ++ σ) σp in
  let σ_σ := σ ++ σ in
  prods <- broadcast2 Cmul mel
             (map (fun l => Cexp (Csub l (logpsi pars σ_σ))) (map (logpsi pars) σ_σp)) ;;
  Ok (ComplexVal (Csum prods)).

(** [nkjax.vmap_batched(f, in_axes=0, batch_size=chunk_size)], defined
    outside this file: [f] mapped over the leading axis in batches. *)
Variable vmap_batched : (list X -> C) -> option nat -> list (list X) -> list C.

Definition local_valuekernel_chunked (logpsi : LogPsi) (pars : Pars)
           (σ : list (list X)) (σp : pyobject (list (list (list X))))
           (mel : list (list C)) (kw : kwargs) : result (list C) :=
  chunk_size <- bind_chunk_size "local_valuekernel_chunked" kw ;;
  let logpsi_batched := vmap_batched (logpsi pars) chunk_size in
  let logpsi_σ := logpsi_batched σ in
  match σp with
  | Function => Raise (AttributeError "'function' object has no attribute 'reshape'")
  | Array σp =>
      let logpsi_σp := regroup σp (logpsi_batched (concat σp)) in
      ratios <- broadcast2 (fun row l => map (fun x => Cexp (Csub x l)) row)
                           logpsi_σp logpsi_σ ;;
      rows <- broadcast2 (broadcast2 Cmul) mel ratios ;;
      prods <- sequence rows ;;
      Ok (map Csum prods)
  end.

Definition local_value_squaredkernel_chunked (logpsi : LogPsi) (pars : Pars)
           (σ : list (list X)) (σp : list (list (list X)))
           (mel : list (list C)) (kw : kwargs) : result (list scalar) :=
  chunk_size <- bind_chunk_size "local_value_squaredkernel_chunked" kw ;;
  vs <- local_valuekernel_chunked logpsi pars σ (Array σp) mel
          [("batch_size"%string, chunk_size)] ;;
  Ok (map (fun v => pow2 (jnp_abs (ComplexVal v))) vs).

Definition local_value_op_op_cost_chunked (logpsi : LogPsi) (pars : Pars)
           (σ : list (list X)) (σp : list (list (list X)))
           (mel : list (list C)) (kw : kwargs) : result (list C) :=
  chunk_size <- bind_chunk_size "local_value_op_op_cost_chunked" kw ;;
  let σ_σp : pyobject (list (list (list X))) := Function in
  let σ_σ := map (fun σi => σi ++ σi) σ in
  local_valuekernel_chunked logpsi pars σ_σ σ_σp mel
    [("batch_size"%string, chunk_size)].

End Kernels.

End Kernels.

(** * Dispatch and the expectation driver
      ([netket/vqs/mc/common.py], [netket/vqs/mc/mc_state/expect.py]) *)

Module Expect.

Import Kernels.

(** An n-dimensional array: its shape and its cells in row-major order.
    [reshape] changes the shape and keeps the cells. *)
Record ndarray (T : Type) : Type := mkArray {
  shape : list nat;
  data : list T
}.

Arguments mkArray {T} shape data.
Arguments shape {T} _.
Arguments data {T} _.

Definition ndim {T : Type} (a : ndarray T) : nat := length (shape a).

Definition prod_dims (dims : list nat) : nat := fold_right Nat.mul 1%nat dims.

(** An entry of a requested shape: [-1] (to be inferred) or a length. *)
Inductive dim : Type :=
| Infer
| Dim (n : nat).

Definition known_dims (req : list dim) : list nat :=
  flat_map (fun d => match d with Infer => [] | Dim n => [n] end) req.

Definition count_infer (req : list dim) : nat :=
  length (filter (fun d => match d with Infer => true | Dim _ => false end) req).

(** [a.reshape(req)] *)
Definition reshape {T : Type} (a : ndarray T) (req : list dim) : result (ndarray T) :=
  let total := prod_dims (shape a) in
  let known := prod_dims (known_dims req) in
  match count_infer req with
  | O => if (known =? total)%nat
         then Ok (mkArray (known_dims req) (data a))
         else Raise (ValueError "cannot reshape array")
  | S O => if ((known =? 0) || negb (total mod known =? 0))%nat
           then Raise (ValueError "cannot reshape array")
           else Ok (mkArray (map (fun d => match d with
                                           | Infer => total / known
                                           | Dim n => n
                                           end) req) (data a))
  | _ => Raise (ValueError "can only specify one unknown dimension")
  end.

(** [shape[0]] and [shape[-1]] *)
Definition first_dim (sh : list nat) : result nat :=
  match sh with
  | [] => Raise (IndexError "tuple index out of range")
  | n :: _ => Ok n
  end.

Definition last_dim (sh : list nat) : result nat :=
  match sh with
  | [] => Raise (IndexError "tuple index out of range")
  | _ => Ok (last sh 0%nat)
  end.

(** The slices of an array along its leading axis, each slice flat. *)
Fixpoint slices {T : Type} (count width : nat) (cells : list T) : list (list T) :=
  match count with
  | O => []
  | S c => firstn width cells :: slices c width (skipn width cells)
  end.

(** A Hilbert-space descriptor; [==] compares the attributes. *)
Definition hilbert_eqb (A B : Autoreg.Hilbert) : bool :=
  (Autoreg.size A =? Autoreg.size B)%nat &&
  (length (Autoreg.local_states A) =? length (Autoreg.local_states B))%nat &&
  forallb (fun xy => Qeq_bool (fst xy) (snd xy))
          (combine (Autoreg.local_states A) (Autoreg.local_states B)).

(** The error of [check_hilbert] (the text of the message without the two
    formatted descriptors). *)
Definition mismatch : exn := NotImplementedError "Non matching hilbert spaces".

(** [check_hilbert] of [common.py] *)
Definition check_hilbert (A B : Autoreg.Hilbert) : result unit :=
  if negb (hilbert_eqb A B)
  then Raise mismatch
  else Ok tt.

Section Driver.

Variables Pars MState X Stats OpData : Type.

(** The flax variables ["params": w, **model_state]. *)
Definition ModelVars : Type := (Pars * MState)%type.

(** The kernels [get_fun] can return. *)
Definition Kernel : Type :=
  LogPsi Pars X -> Pars -> list X -> list (list X) -> list C -> result scalar.

(** Operators by runtime category: a discrete operator, the squared
    wrapper of an operator, or a category with no registered entry. *)
Inductive operator : Type :=
| DiscreteOperator (h : Autoreg.Hilbert) (body : OpData)
| Squared (h : Autoreg.Hilbert) (parent : operator)
| OtherOperator (h : Autoreg.Hilbert).

Definition op_hilbert (O : operator) : Autoreg.Hilbert :=
  match O with
  | DiscreteOperator h _ => h
  | Squared h _ => h
  | OtherOperator h => h
  end.

(** [Ô.get_conn_padded(σ)], a method of the operator classes. *)
Variable get_conn_padded :
  operator -> ndarray X -> result (ndarray X * ndarray C).

Record MCState : Type := mkMCState {
  vs_hilbert : Autoreg.Hilbert;
  samples : ndarray X;
  _apply_fun : ModelVars -> list X -> C;
  sampler_machine_pow : Z;
  parameters : Pars;
  model_state : MState
}.

(** The two registered [get_configs] entries. *)
Definition get_configs_Squared (vstate : MCState) (h : Autoreg.Hilbert)
           (parent : operator) : result (ndarray X * ndarray X * ndarray C) :=
  _ <- check_hilbert (vs_hilbert vstate) h ;;
  let σ := samples vstate in
  r <- get_conn_padded parent σ ;;
  let '(σp, mels) := r in
  Ok (σ, σp, mels).

Definition get_configs_DiscreteOperator (vstate : MCState) (O : operator)
  : result (ndarray X * ndarray X * ndarray C) :=
  _ <- check_hilbert (vs_hilbert vstate) (op_hilbert O) ;;
  let σ := samples vstate in
  r <- get_conn_padded O σ ;;
  let '(σp, mels) := r in
  Ok (σ, σp, mels).

Definition dispatch_miss {A : Type} : result A :=
  Raise (NotFoundLookupError "no matching method").

(** Dispatch on the operator's category. *)
Definition get_configs (vstate : MCState) (O : operator)
  : result (ndarray X * ndarray X * ndarray C) :=
  match O with
  | Squared h parent => get_configs_Squared vstate h parent
  | DiscreteOperator _ _ => get_configs_DiscreteOperator vstate O
  | OtherOperator _ => dispatch_miss
  end.

Definition get_fun (vstate : MCState) (O : operator) : result Kernel :=
  match O with
  | Squared _ _ => Ok (local_value_squared_kernel Pars X)
  | DiscreteOperator _ _ => Ok (local_value_kernel Pars X)
  | OtherOperator _ => dispatch_miss
  end.

(** [jax.vmap(partial(kernel, logpsi), in_axes=(None, 0, 0, 0))] on arrays
    of shapes (B, N), (B, K, N) and (B, K). *)
Definition local_value_vmap (kernel : Kernel) (logpsi : LogPsi Pars X)
           (pars : Pars) (σ σp : ndarray X) (mels : ndarray C)
  : result (list scalar) :=
  match shape σ, shape σp, shape mels with
  | [B; N], [B1; K; N1], [B2; K2] =>
      if ((B =? B1) && (B =? B2))%nat then
        sequence
          (map2 (fun s pm => kernel logpsi pars s
                               (slices K N1 (fst pm)) (snd pm))
                (slices B N (data σ))
                (combine (slices B (K * N1) (data σp))
                         (slices B K2 (data mels))))
      else Raise (ValueError "vmap got inconsistent sizes for array axes")
  | _, _, _ => Raise (ValueError "vmap in_axes out of bounds")
  end.

(** [nkjax.expect(log_pdf, fun, pars, σ, σp, mels, n_chains=...)], defined
    outside this file; it returns the mean and the statistics. *)
Variable nkjax_expect :
  (Pars -> list X -> R) ->
  (Pars -> ndarray X -> ndarray X -> ndarray C -> result (list scalar)) ->
  Pars -> ndarray X -> ndarray X -> ndarray C -> nat -> result (scalar * Stats).

Definition _expect (local_value_kernel : Kernel)
           (model_apply_fun : ModelVars -> list X -> C)
           (machine_pow : Z) (parameters : Pars) (model_state : MState)
           (σ σp : ndarray X) (mels : ndarray C) : result Stats :=
  let σ_shape := shape σ in
  σ <- (if negb (ndim σ =? 2)%nat
        then n <- last_dim σ_shape ;; reshape σ [Infer; Dim n]
        else Ok σ) ;;
  r <- (if negb (ndim σp =? 3)%nat
        then b <- first_dim (shape σ) ;;
             n <- last_dim σ_shape ;;
             σp <- reshape σp [Dim b; Infer; Dim n] ;;
             mels <- reshape mels (map Dim (removelast (shape σp))) ;;
             Ok (σp, mels)
        else Ok (σp, mels)) ;;
  let '(σp, mels) := r in
  let logpsi := fun w σ => model_apply_fun (w, model_state) σ in
  let log_pdf := fun w σ =>
    (IZR machine_pow * fst (model_apply_fun (w, model_state) σ))%R in
  let local_value_vmap := local_value_vmap local_value_kernel logpsi in
  n_chains <- first_dim σ_shape ;;
  r <- nkjax_expect log_pdf local_value_vmap parameters σ σp mels n_chains ;;
  Ok (snd r).

(** The registered [expect] entry. *)
Definition expect (vstate : MCState) (O : operator) : result Stats :=
  r <- get_configs vstate O ;;
  let '(σ, σp, mels) := r in
  local_estimator_fun <- get_fun vstate O ;;
  _expect local_estimator_fun (_apply_fun vstate) (sampler_machine_pow vstate)
          (parameters vstate) (model_state vstate) σ σp mels.

End Driver.

(** Reference instances: a reducer that reports the chain count it is given
    as its statistics, and a two-site state whose operator lives on three
    sites. *)
Definition chain_count_reducer
           (log_pdf : unit -> list unit -> R)
           (f : unit -> ndarray unit -> ndarray unit -> ndarray C -> result (list scalar))
           (pars : unit) (σ σp : ndarray unit) (mels : ndarray C) (n_chains : nat)
  : result (scalar * nat) := Ok (FloatVal 0, n_chains).

Definition unreachable_conn (O : operator unit) (σ : ndarray unit)
  : result (ndarray unit * ndarray C) :=
  Raise (ValueError "get_conn_padded was called").

Definition constant_model (v : ModelVars unit unit) (σ : list unit) : C := (0%R, 0%R).

Definition two_site_state : MCState unit unit unit :=
  mkMCState unit unit unit
    (Autoreg.mkHilbert 2 [-1; 1]%Q) (mkArray [1; 1; 2] [tt; tt])
    constant_model 2 tt tt.

Definition three_site_operator : operator unit :=
  DiscreteOperator unit (Autoreg.mkHilbert 3 [-1; 1]%Q) tt.

End Expect.

(** * The continuous-space Hilbert descriptor ([netket/hilbert/particle.py]) *)

Module ParticleSpace.

(** The argument [L]: a scalar, or a sequence (something with [__len__]). *)
Inductive extent_arg : Type :=
| ScalarL (l : Q)
| SeqL (ls : list Q).

(** The argument [pbc]: one [bool], or a sequence of them. *)
Inductive pbc_arg : Type :=
| BoolPbc (b : bool)
| SeqPbc (bs : list bool).

Record Particle : Type := mkParticle {
  _N : Z;
  _L : list Q;
  _pbc : list bool
}.

Section Init.

(** [ContinuousHilbert.__init__(L, pbc)] of the parent class, defined
    outside this file. *)
Variable super_init : list Q -> list bool -> result unit.

Definition __init__ (N : Z) (L : extent_arg) (pbc : pbc_arg) : result Particle :=
  let L := match L with
           | ScalarL l => [l]
           | SeqL ls => ls
           end in
  let pbc := match pbc with
             | BoolPbc b => repeat b (length L)
             | SeqPbc bs => bs
             end in
  let self := mkParticle N L pbc in
  _ <- super_init (_L self) (_pbc self) ;;
  Ok self.

End Init.

Definition size (self : Particle) : Z := (_N self * Z.of_nat (length (_L self)))%Z.

Definition n_particles (self : Particle) : Z := _N self.

Definition _attrs (self : Particle) : Z * list Q * list bool :=
  (_N self, _L self, _pbc self).

End ParticleSpace.

(** * Properties of the batched categorical sampler *)

Section BatchChoiceFacts.

Import Autoreg.
Local Open Scope Q_scope.

Variable Key : Type.
Variable A : Type.
Variable uniform : Key -> nat -> nat -> Q.
Variable dflt : A.

Lemma Qgtb_true (x y : Q) : Qgtb x y = true <-> y < x.
Proof.
  unfold Qgtb. rewrite negb_true_iff.
  split; intro H.
  - apply Qnot_le_lt. intro Hle. apply Qle_bool_iff in Hle. congruence.
  - destruct (Qle_bool x y) eqn:E; [|reflexivity].
    apply Qle_bool_iff in E. exfalso. apply (Qlt_not_le _ _ H E).
Qed.

Lemma Qgtb_false (x y : Q) : Qgtb x y = false <-> x <= y.
Proof.
  unfold Qgtb. rewrite negb_false_iff. apply Qle_bool_iff.
Qed.

Lemma cumsum_from_length (row : list Q) :
  forall acc, length (cumsum_from acc row) = length row.
Proof.
  induction row as [|w t IH]; intros acc; simpl; [reflexivity|].
  now rewrite IH.
Qed.

Lemma last_slice_last (cs : list Q) :
  cs <> [] -> last_slice cs = [last cs 0].
Proof.
  induction cs as [|c t IH]; intros Hne; [congruence|].
  destruct t as [|c' t']; [reflexivity|].
  change (last_slice (c :: c' :: t')) with (last_slice (c' :: t')).
  change (last (c :: c' :: t') 0) with (last (c' :: t') 0).
  apply IH. discriminate.
Qed.

Lemma last_cumsum_from (row : list Q) :
  forall acc, last (cumsum_from acc row) acc == acc + Qsum row.
Proof.
  induction row as [|w t IH]; intros acc; simpl.
  - ring.
  - destruct t as [|w' t'].
    + simpl. ring.
    + specialize (IH (acc + w)).
      simpl in IH |- *.
      assert (Hd : forall (l : list Q) d d', l <> [] -> last l d = last l d').
      { clear. induction l as [|x l IHl]; intros d d' H; [congruence|].
        destruct l; [reflexivity|]. simpl. apply IHl. discriminate. }
      destruct (cumsum_from (acc + w + w') t') eqn:E.
      * simpl in IH. rewrite IH. ring.
      * rewrite (Hd (q :: l) acc (acc + w)) by discriminate.
        rewrite IH. ring.
Qed.

Lemma nth_cumsum_from (row : list Q) :
  forall acc k, (k < length row)%nat ->
    nth k (cumsum_from acc row) 0 == acc + Qsum (firstn (S k) row).
Proof.
  induction row as [|w t IH]; intros acc k Hk; simpl in Hk; [lia|].
  destruct k as [|k].
  - simpl. destruct t; simpl; ring.
  - change (nth (S k) (cumsum_from acc (w :: t)) 0)
      with (nth k (cumsum_from (acc + w) t) 0).
    rewrite IH by lia.
    change (firstn (S (S k)) (w :: t)) with (w :: firstn (S k) t).
    simpl. ring.
Qed.

Lemma cumsum_from_sorted (row : list Q) :
  Forall (fun w => 0 <= w) row ->
  forall acc, StronglySorted Qle (cumsum_from acc row) /\
              Forall (fun c => acc <= c) (cumsum_from acc row).
Proof.
  induction 1 as [|w t Hw Ht IH]; intros acc; simpl.
  - split; constructor.
  - destruct (IH (acc + w)) as [Hs Hall].
    assert (Hacc : acc <= acc + w) by Lqa.lra.
    split.
    + constructor; assumption.
    + constructor; [assumption|].
      eapply Forall_impl; [|exact Hall].
      intros c Hc. simpl in Hc. Lqa.lra.
Qed.

Lemma bool_sum_all_false {T : Type} (f : T -> bool) (l : list T) :
  Forall (fun x => f x = false) l -> bool_sum (map f l) = 0%nat.
Proof.
  induction 1 as [|x t Hx Ht IH]; simpl; [reflexivity|].
  now rewrite Hx, IH.
Qed.

Lemma bool_sum_le_length (l : list bool) : (bool_sum l <= length l)%nat.
Proof.
  induction l as [|b t IH]; simpl; [lia|]. destruct b; lia.
Qed.

Lemma bool_sum_last_false {T : Type} (f : T -> bool) (d : T) (l : list T) :
  l <> [] -> f (last l d) = false ->
  (bool_sum (map f l) < length l)%nat.
Proof.
  induction l as [|x t IH]; intros Hne Hlast; [congruence|].
  destruct t as [|y t'].
  - simpl in *. rewrite Hlast. lia.
  - change (last (x :: y :: t') d) with (last (y :: t') d) in Hlast.
    specialize (IH ltac:(discriminate) Hlast).
    change (map f (x :: y :: t')) with (f x :: map f (y :: t')).
    change (bool_sum (f x :: map f (y :: t')))
      with ((if f x then 1 else 0) + bool_sum (map f (y :: t')))%nat.
    change (length (x :: y :: t')) with (S (length (y :: t'))).
    destruct (f x); lia.
Qed.

(** On a non-decreasing array the count of cells strictly below [r] is
    the position of the first cell that reaches [r]. *)
Lemma count_below_sorted (r : Q) (cs : list Q) :
  StronglySorted Qle cs ->
  let m := bool_sum (map (Qgtb r) cs) in
  (forall k, (k < m)%nat -> nth k cs 0 < r) /\
  (forall k, (m <= k < length cs)%nat -> r <= nth k cs 0).
Proof.
  induction 1 as [|c t Hs IH Hall]; simpl.
  - split; intros k Hk; lia.
  - destruct IH as [IHlt IHge].
    destruct (Qgtb r c) eqn:E.
    + apply Qgtb_true in E. split.
      * intros [|k] Hk; [exact E|]. apply IHlt. lia.
      * intros [|k] Hk; [lia|]. apply IHge. lia.
    + apply Qgtb_false in E.
      assert (Hz : bool_sum (map (Qgtb r) t) = 0%nat).
      { apply bool_sum_all_false.
        eapply Forall_impl; [|exact Hall].
        intros x Hx. simpl in Hx. apply Qgtb_false. Lqa.lra. }
      rewrite Hz. split.
      * intros k Hk. lia.
      * intros [|k] Hk; [exact E|].
        rewrite Forall_forall in Hall.
        assert (Hin : In (nth k t 0) t) by (apply nth_In; lia).
        specialize (Hall _ Hin). simpl in Hall. Lqa.lra.
Qed.

Lemma nth_error_enumerate_from {T : Type} (l : list T) :
  forall s i, nth_error (enumerate_from s l) i =
              option_map (fun x => ((s + i)%nat, x)) (nth_error l i).
Proof.
  induction l as [|x t IH]; intros s i.
  - destruct i; reflexivity.
  - destruct i as [|i]; simpl.
    + now rewrite Nat.add_0_r.
    + rewrite IH. now rewrite Nat.add_succ_r.
Qed.

Lemma nth_error_choice_indices (key : Key) (p : list (list Q)) (i : nat) :
  nth_error (choice_indices Key uniform key p) i =
  option_map (row_index (uniform key (length p) i)) (nth_error p i).
Proof.
  unfold choice_indices, enumerate.
  rewrite nth_error_map, nth_error_enumerate_from.
  destruct (nth_error p i); reflexivity.
Qed.

Lemma nth_error_batch_choice (key : Key) (a : list A) (p : list (list Q)) (i : nat) :
  nth_error (batch_choice Key A uniform dflt key a p) i =
  option_map (fun row => take dflt a (row_index (uniform key (length p) i) row))
             (nth_error p i).
Proof.
  unfold batch_choice.
  rewrite nth_error_map, nth_error_choice_indices.
  destruct (nth_error p i); reflexivity.
Qed.

Lemma batch_choice_length (key : Key) (a : list A) (p : list (list Q)) :
  length (batch_choice Key A uniform dflt key a p) = length p.
Proof.
  unfold batch_choice, choice_indices, enumerate.
  rewrite !length_map.
  generalize 0%nat. induction p as [|x t IH]; intros s; simpl; [reflexivity|].
  now rewrite IH.
Qed.

Lemma row_index_nonempty (u : Q) (row : list Q) :
  row <> [] ->
  row_index u row =
  bool_sum (map (Qgtb (last (cumsum row) 0 * u)) (cumsum row)).
Proof.
  intros Hne. unfold row_index, row_r.
  rewrite last_slice_last; [reflexivity|].
  intro E. apply Hne. apply length_zero_iff_nil.
  rewrite <- (cumsum_from_length row 0). unfold cumsum in E. now rewrite E.
Qed.

Lemma positive_sum_nonempty (row : list Q) : 0 < Qsum row -> row <> [].
Proof.
  intros H E. subst row. simpl in H. Lqa.lra.
Qed.

Lemma total_is_sum (row : list Q) : last (cumsum row) 0 == Qsum row.
Proof.
  unfold cumsum. rewrite last_cumsum_from. ring.
Qed.

Lemma draw_below_total (u : Q) (row : list Q) :
  0 < Qsum row -> u < 1 -> last (cumsum row) 0 * u < last (cumsum row) 0.
Proof.
  intros Hpos Hu. rewrite total_is_sum. Lqa.nra.
Qed.

Lemma row_index_in_bounds (u : Q) (row : list Q) :
  0 < Qsum row -> u < 1 -> (row_index u row < length row)%nat.
Proof.
  intros Hpos Hu.
  pose proof (positive_sum_nonempty row Hpos) as Hne.
  rewrite row_index_nonempty by assumption.
  rewrite <- (cumsum_from_length row 0). fold (cumsum row).
  apply bool_sum_last_false with (d := 0).
  - intro E. apply Hne. apply length_zero_iff_nil.
    rewrite <- (cumsum_from_length row 0). fold (cumsum row). now rewrite E.
  - apply Qgtb_false. apply Qlt_le_weak. now apply draw_below_total.
Qed.

Lemma take_in_bounds (a : list A) (i : nat) :
  (i < length a)%nat -> Some (take dflt a i) = nth_error a i.
Proof.
  intros Hi. unfold take.
  replace (Nat.min i (Nat.pred (length a))) with i by lia.
  symmetry. now apply nth_error_nth'.
Qed.

Lemma cumsum_from_zero (row : list Q) :
  Forall (fun w => w == 0) row ->
  forall acc, acc == 0 -> Forall (fun c => c == 0) (cumsum_from acc row).
Proof.
  induction 1 as [|w t Hw Ht IH]; intros acc Hacc; simpl; constructor.
  - rewrite Hacc, Hw. ring.
  - apply IH. rewrite Hacc, Hw. ring.
Qed.

Lemma last_slice_incl (cs : list Q) (x : Q) : In x (last_slice cs) -> In x cs.
Proof.
  induction cs as [|c t IH]; intros Hin; [exact Hin|].
  destruct t as [|c' t']; [exact Hin|].
  right. apply IH. exact Hin.
Qed.

Lemma gt_broadcast_zero_row (u : Q) (row : list Q) :
  Forall (fun w => w == 0) row ->
  Forall (fun b => b = false) (gt_broadcast (row_r u (cumsum row)) (cumsum row)).
Proof.
  intros Hz.
  pose proof (cumsum_from_zero row Hz 0 (Qeq_refl 0)) as Hcs.
  fold (cumsum row) in Hcs.
  unfold gt_broadcast, row_r.
  destruct (last_slice (cumsum row)) as [|c rest] eqn:E; simpl; [constructor|].
  assert (Hc : c == 0).
  { rewrite Forall_forall in Hcs. apply Hcs.
    apply last_slice_incl. rewrite E. now left. }
  apply Forall_map.
  eapply Forall_impl; [|exact Hcs].
  intros x Hx. simpl in Hx. apply Qgtb_false. rewrite Hc, Hx. Lqa.lra.
Qed.

Lemma bool_sum_false (l : list bool) :
  Forall (fun b => b = false) l -> bool_sum l = 0%nat.
Proof.
  induction 1 as [|b t Hb Ht IH]; simpl; [reflexivity|].
  now rewrite Hb, IH.
Qed.

(** C10: a row of zero weights selects index 0, hence [a[0]], whatever
    the key: every cumulative sum and the scaled draw are zero and the
    strict comparison [r > p_cumsum] holds in no cell. *)
Theorem batch_choice_zero_row
        (key : Key) (a : list A) (p : list (list Q)) (i : nat) (row : list Q) :
  nth_error p i = Some row ->
  Forall (fun w => w == 0) row ->
  let u := uniform key (length p) i in
  Forall (fun c => c == 0) (cumsum row) /\
  Forall (fun r => r == 0) (row_r u (cumsum row)) /\
  Forall (fun b => b = false) (gt_broadcast (row_r u (cumsum row)) (cumsum row)) /\
  nth_error (choice_indices Key uniform key p) i = Some 0%nat /\
  nth_error (batch_choice Key A uniform dflt key a p) i = Some (nth 0 a dflt).
Proof.
  intros Hrow Hz u.
  pose proof (cumsum_from_zero row Hz 0 (Qeq_refl 0)) as Hcs.
  fold (cumsum row) in Hcs.
  pose proof (gt_broadcast_zero_row u row Hz) as Hcmp.
  assert (Hidx : row_index u row = 0%nat).
  { unfold row_index. now apply bool_sum_false. }
  repeat split.
  - exact Hcs.
  - unfold row_r. apply Forall_map. rewrite Forall_forall. intros x Hx.
    rewrite Forall_forall in Hcs.
    rewrite (Hcs x (last_slice_incl _ _ Hx)). ring.
  - exact Hcmp.
  - rewrite nth_error_choice_indices, Hrow. simpl. fold u. now rewrite Hidx.
  - rewrite nth_error_batch_choice, Hrow. simpl. fold u. rewrite Hidx.
    reflexivity.
Qed.

(** C6: with non-negative weights and positive row sums every selected
    index is a valid position of [a] (the scaled draw stays strictly below
    the final cumulative sum), and the output has one element of [a] per
    row of [p]. *)
Theorem batch_choice_in_bounds (key : Key) (a : list A) (p : list (list Q)) :
  (forall i, 0 <= uniform key (length p) i /\ uniform key (length p) i < 1) ->
  Forall (fun row => length row = length a /\
                     Forall (fun w => 0 <= w) row /\ 0 < Qsum row) p ->
  length (batch_choice Key A uniform dflt key a p) = length p /\
  forall i row, nth_error p i = Some row ->
    exists idx,
      nth_error (choice_indices Key uniform key p) i = Some idx /\
      (0 <= idx <= length a - 1)%nat /\
      last (cumsum row) 0 * uniform key (length p) i < last (cumsum row) 0 /\
      nth_error (batch_choice Key A uniform dflt key a p) i = nth_error a idx /\
      In (nth idx a dflt) a.
Proof.
  intros Hu Hp. split; [apply batch_choice_length|].
  intros i row Hrow.
  rewrite Forall_forall in Hp.
  destruct (Hp row (nth_error_In _ _ Hrow)) as (Hlen & _ & Hpos).
  destruct (Hu i) as [_ Hu1].
  pose proof (row_index_in_bounds _ row Hpos Hu1) as Hidx.
  rewrite Hlen in Hidx.
  exists (row_index (uniform key (length p) i) row).
  repeat split.
  - rewrite nth_error_choice_indices, Hrow. reflexivity.
  - lia.
  - lia.
  - now apply draw_below_total.
  - rewrite nth_error_batch_choice, Hrow. simpl. now apply take_in_bounds.
  - now apply nth_In.
Qed.

(** C1 (as amended): for a draw [0 < u < 1] the selected index is the
    first one whose cumulative sum reaches [r = total * u] (the number of
    cumulative sums strictly below [r]); for a one-hot row at [j] it is
    [j]. *)
Theorem batch_choice_first_reaching
        (key : Key) (a : list A) (p : list (list Q)) (i : nat) (row : list Q) :
  0 < uniform key (length p) i /\ uniform key (length p) i < 1 ->
  nth_error p i = Some row ->
  Forall (fun w => 0 <= w) row ->
  0 < Qsum row ->
  let u := uniform key (length p) i in
  let cs := cumsum row in
  let r := last cs 0 * u in
  exists idx,
    nth_error (choice_indices Key uniform key p) i = Some idx /\
    nth_error (batch_choice Key A uniform dflt key a p) i = Some (take dflt a idx) /\
    (idx < length row)%nat /\
    r <= nth idx cs 0 /\
    (forall k, (k < idx)%nat -> nth k cs 0 < r) /\
    (forall j, one_hot row j -> idx = j).
Proof.
  intros [Hupos Hu1] Hrow Hnn Hpos u cs r.
  pose proof (positive_sum_nonempty row Hpos) as Hne.
  pose proof (row_index_in_bounds u row Hpos Hu1) as Hidx.
  destruct (cumsum_from_sorted row Hnn 0) as [Hsorted _].
  fold (cumsum row) in Hsorted. fold cs in Hsorted.
  pose proof (count_below_sorted r cs Hsorted) as Hcount.
  simpl in Hcount.
  assert (Hri : row_index u row = bool_sum (map (Qgtb r) cs))
    by (now apply row_index_nonempty).
  rewrite <- Hri in Hcount. destruct Hcount as [Hlt Hge].
  assert (Hlen : length cs = length row) by apply cumsum_from_length.
  exists (row_index u row).
  split; [rewrite nth_error_choice_indices, Hrow; reflexivity|].
  split; [rewrite nth_error_batch_choice, Hrow; reflexivity|].
  split; [exact Hidx|].
  split; [apply Hge; lia|].
  split; [exact Hlt|].
  intros j (Hj & Hwj & Hother).
  assert (Htot : last cs 0 == Qsum row) by apply total_is_sum.
  assert (Hr0 : 0 < r).
  { unfold r. apply Qmult_lt_0_compat; [rewrite Htot; exact Hpos|exact Hupos]. }
  assert (Hr1 : r < Qsum row).
  { apply Qlt_le_trans with (last cs 0).
    - now apply draw_below_total.
    - rewrite Htot. apply Qle_refl. }
  assert (Hprefix : forall k, (k < length row)%nat ->
            Forall (fun w => w == 0) (firstn (S k) row) \/ (j <= k)%nat).
  { intros k Hk. destruct (le_lt_dec j k) as [Hjk|Hjk]; [now right|left].
    rewrite Forall_forall. intros x Hx.
    apply In_nth with (d := 0) in Hx. destruct Hx as (n & Hn & Hx).
    rewrite length_firstn in Hn. rewrite nth_firstn in Hx.
    destruct (Nat.ltb_spec n (S k)) as [_|Hbad]; [|lia].
    rewrite <- Hx. apply Hother; lia. }
  assert (Hzero : forall l, Forall (fun w => w == 0) l -> Qsum l == 0).
  { clear. induction 1 as [|w t Hw Ht IH]; simpl; [reflexivity|].
    rewrite Hw, IH. ring. }
  destruct (lt_eq_lt_dec (row_index u row) j) as [[Hlow|Heq]|Hhigh].
  - exfalso.
    assert (Hk : (row_index u row < length row)%nat) by lia.
    specialize (Hge (row_index u row) ltac:(lia)).
    unfold cs, cumsum in Hge. rewrite nth_cumsum_from in Hge by exact Hk.
    destruct (Hprefix _ Hk) as [Hz|Hbad]; [|lia].
    rewrite (Hzero _ Hz) in Hge. Lqa.lra.
  - exact Heq.
  - exfalso.
    specialize (Hlt j Hhigh).
    assert (Hmono : Qsum row <= nth j cs 0).
    { rewrite <- Htot.
      assert (Hlast : last cs 0 = nth (length cs - 1) cs 0).
      { clear. induction cs as [|c t IH]; [reflexivity|].
        destruct t as [|c' t']; [reflexivity|].
        change (last (c :: c' :: t') 0) with (last (c' :: t') 0).
        rewrite IH. simpl. now rewrite Nat.sub_0_r. }
      rewrite Hlast.
      unfold cs, cumsum.
      rewrite !nth_cumsum_from by (rewrite ?cumsum_from_length; lia).
      rewrite cumsum_from_length.
      replace (S (length row - 1)) with (length row) by lia.
      rewrite firstn_all.
      rewrite <- (firstn_skipn (S j) row) at 1.
      assert (Hsplit : forall l1 l2, Qsum (l1 ++ l2) == Qsum l1 + Qsum l2).
      { clear. induction l1 as [|x l1 IH]; intros l2; simpl; [ring|].
        rewrite IH. ring. }
      rewrite Hsplit.
      assert (Htail : Forall (fun w => w == 0) (skipn (S j) row)).
      { rewrite Forall_forall. intros x Hx.
        apply In_nth with (d := 0) in Hx. destruct Hx as (n & Hn & Hx).
        rewrite length_skipn in Hn. rewrite nth_skipn in Hx.
        rewrite <- Hx. apply Hother; lia. }
      rewrite (Hzero _ Htail). Lqa.lra. }
    Lqa.lra.
Qed.

End BatchChoiceFacts.

(** * Properties of the sampler object *)

Section SamplerFacts.

Import Autoreg.

Lemma one_hot_example :
  one_hot [0; 1]%Q 1.
Proof.
  unfold one_hot. simpl. repeat split; try lia; try reflexivity.
  intros k Hk Hne. destruct k as [|[|k]]; try lia. simpl. reflexivity.
Qed.

(** C1, at a draw of zero: the code selects index 0 of the one-hot row
    [0, 1], whose weight sits in cell 1; and at the draw 1/2 on the row
    [1, 1], where [r] equals the first cumulative sum, the code selects
    index 0 while the first cumulative sum that exceeds [r] is at index 1. *)
Lemma batch_choice_one_hot_counterexample :
  (one_hot [0; 1]%Q 1 /\
   (0 <= zero_draw tt 1%nat 0%nat /\ zero_draw tt 1%nat 0%nat < 1)%Q /\
   choice_indices unit zero_draw tt [[0; 1]%Q] = [0%nat] /\
   batch_choice unit Z zero_draw 0%Z tt [10; 20]%Z [[0; 1]%Q] = [10%Z] /\
   first_exceeding (last (cumsum [0; 1]%Q) 0 * zero_draw tt 1%nat 0%nat)%Q
                   (cumsum [0; 1]%Q) = Some 1%nat) /\
  ((0 <= half_draw tt 1%nat 0%nat /\ half_draw tt 1%nat 0%nat < 1)%Q /\
   choice_indices unit half_draw tt [[1; 1]%Q] = [0%nat] /\
   first_exceeding (last (cumsum [1; 1]%Q) 0 * half_draw tt 1%nat 0%nat)%Q
                   (cumsum [1; 1]%Q) = Some 1%nat).
Proof.
  split.
  - split; [exact one_hot_example|].
    split; [split; [discriminate|reflexivity]|].
    repeat split; reflexivity.
  - split; [split; [discriminate|reflexivity]|].
    split; reflexivity.
Qed.

Lemma batch_choice_first_reaching_witness :
  exists idx,
    nth_error (choice_indices unit half_draw tt [[0; 1]%Q]) 0 = Some idx /\
    nth_error (batch_choice unit Z half_draw 0%Z tt [10; 20]%Z [[0; 1]%Q]) 0
      = Some (take 0%Z [10; 20]%Z idx) /\
    (idx < 2)%nat /\
    (forall j, one_hot [0; 1]%Q j -> idx = j).
Proof.
  destruct (batch_choice_first_reaching unit Z half_draw 0%Z tt [10; 20]%Z
              [[0; 1]%Q] 0%nat [0; 1]%Q)
    as (idx & H1 & H2 & H3 & _ & _ & H6).
  - split; reflexivity.
  - reflexivity.
  - repeat constructor; discriminate.
  - reflexivity.
  - exists idx. repeat split; assumption.
Defined.

Lemma batch_choice_in_bounds_witness :
  length (batch_choice unit Z half_draw 0%Z tt [10; 20]%Z [[1; 1]%Q; [0; 3]%Q])
  = 2%nat.
Proof.
  apply (batch_choice_in_bounds unit Z half_draw 0%Z tt [10; 20]%Z
           [[1; 1]%Q; [0; 3]%Q]).
  - intros i. split; [discriminate|reflexivity].
  - repeat constructor; discriminate.
Defined.

Lemma batch_choice_zero_row_witness :
  nth_error (batch_choice unit Z half_draw 0%Z tt [10; 20]%Z [[0; 0]%Q]) 0
  = Some 10%Z.
Proof.
  apply (batch_choice_zero_row unit Z half_draw 0%Z tt [10; 20]%Z [[0; 0]%Q]
           0%nat [0; 0]%Q).
  - reflexivity.
  - repeat constructor; reflexivity.
Defined.

(** ** Construction of the sampler *)

(** C3, at a float: [machine_pow = 3.0] is not an [int], the check is
    skipped and the sampler is constructed. *)
Lemma post_init_float_counterexample :
  new_sampler (fun _ => Ok tt) (mkHilbert 2 [-1; 1]%Q) 1 (PyFloat 3)
  = Ok (mkSampler (mkHilbert 2 [-1; 1]%Q) 1 (PyFloat 3)).
Proof. reflexivity. Qed.

(** C3 (as amended): when the parent's [__post_init__] succeeds, every
    [int] value of [machine_pow] other than 2 makes the construction raise
    the misconfiguration error, so that no sampler object comes to exist;
    the value 2 and the values that are not [int]s construct the sampler. *)
Theorem post_init_rejects_int_override
        (super_post_init : ARDirectSampler -> result unit)
        (h : Hilbert) (n_chains : nat) (mp : pyvalue) :
  super_post_init (mkSampler h n_chains mp) = Ok tt ->
  (forall z, as_int mp = Some z -> z <> 2%Z ->
     post_init super_post_init (mkSampler h n_chains mp)
       = Raise (ValueError machine_pow_msg) /\
     new_sampler super_post_init h n_chains mp
       = Raise (ValueError machine_pow_msg)) /\
  (as_int mp = Some 2%Z \/ as_int mp = None ->
     new_sampler super_post_init h n_chains mp = Ok (mkSampler h n_chains mp)).
Proof.
  intros Hsuper. unfold new_sampler, post_init. rewrite Hsuper. simpl.
  split.
  - intros z Hz Hne. rewrite Hz.
    destruct (Z.eqb_spec z 2) as [E|E]; [contradiction|]. simpl. split; reflexivity.
  - intros [Hz|Hz]; rewrite Hz; reflexivity.
Qed.

Lemma post_init_rejects_int_override_witness :
  new_sampler (fun _ => Ok tt) (mkHilbert 2 [-1; 1]%Q) 1 (PyInt 3)
  = Raise (ValueError machine_pow_msg).
Proof.
  apply (post_init_rejects_int_override (fun _ => Ok tt)
           (mkHilbert 2 [-1; 1]%Q) 1%nat (PyInt 3) eq_refl) with (z := 3%Z).
  - reflexivity.
  - discriminate.
Defined.

End SamplerFacts.

(** * Properties of the estimator kernels *)

Section KernelFacts.

Import Kernels.
Local Open Scope R_scope.

Variables Pars X : Type.

Lemma map2_pointwise {A B D : Type} (f : A -> B -> D) (da : A) (db : B) :
  forall (x : list A) (y : list B), length x = length y ->
    map2 f x y = map (fun k => f (nth k x da) (nth k y db)) (seq 0 (length y)).
Proof.
  induction x as [|a x IH]; intros [|b y] Hlen; simpl in Hlen; try discriminate;
    [reflexivity|].
  simpl. f_equal. rewrite <- seq_shift, map_map. apply IH. lia.
Qed.

Lemma broadcast2_same_length {A B D : Type} (f : A -> B -> D)
      (x : list A) (y : list B) :
  length x = length y -> broadcast2 f x y = Ok (map2 f x y).
Proof.
  intros Hlen. unfold broadcast2. rewrite Hlen, Nat.eqb_refl. reflexivity.
Qed.

Lemma Cabs_sqr (z : C) : Cabs z ^ 2 = fst z * fst z + snd z * snd z.
Proof.
  unfold Cabs. simpl. rewrite Rmult_1_r. apply sqrt_sqrt. nra.
Qed.

Lemma local_value_kernel_eval
      (logpsi : LogPsi Pars X) (pars : Pars)
      (σ : list X) (σp : list (list X)) (mel : list C) :
  length mel = length σp ->
  local_value_kernel Pars X logpsi pars σ σp mel
  = Ok (ComplexVal (local_value_sum Pars X logpsi pars σ σp mel)).
Proof.
  intros Hlen. unfold local_value_kernel, local_value_sum.
  rewrite broadcast2_same_length by (now rewrite !length_map).
  simpl. do 3 f_equal.
  rewrite (map2_pointwise Cmul (0, 0) (0, 0)) by (now rewrite !length_map).
  rewrite !length_map. apply map_ext_in. intros k Hk.
  apply in_seq in Hk. f_equal.
  rewrite map_map.
  rewrite (nth_indep _ (0, 0) (Cexp (Csub (logpsi pars []) (logpsi pars σ))))
    by (rewrite length_map; lia).
  now rewrite (map_nth (fun l => Cexp (Csub (logpsi pars l) (logpsi pars σ)))).
Qed.

(** C7: on a triple with one matrix element per connected configuration,
    [local_value_kernel] returns the sum over [k] of
    [mel_k * exp(logψ(σp_k) - logψ(σ))]. *)
Theorem local_value_kernel_is_sum
        (logpsi : LogPsi Pars X) (pars : Pars)
        (σ : list X) (σp : list (list X)) (mel : list C) :
  length mel = length σp ->
  local_value_kernel Pars X logpsi pars σ σp mel
  = Ok (ComplexVal
          (Csum (map (fun k => Cmul (nth k mel (0, 0))
                                    (Cexp (Csub (logpsi pars (nth k σp []))
                                                (logpsi pars σ))))
                     (seq 0 (length σp))))).
Proof.
  intros Hlen. now rewrite local_value_kernel_eval.
Qed.

(** C8: [local_value_squared_kernel] returns the squared magnitude of
    [local_value_kernel] on the same input, a real and non-negative
    number. *)
Theorem local_value_squared_kernel_nonneg
        (logpsi : LogPsi Pars X) (pars : Pars)
        (σ : list X) (σp : list (list X)) (mel : list C) :
  length mel = length σp ->
  exists z : C,
    local_value_kernel Pars X logpsi pars σ σp mel = Ok (ComplexVal z) /\
    local_value_squared_kernel Pars X logpsi pars σ σp mel
      = Ok (FloatVal (Cabs z ^ 2)) /\
    Cabs z ^ 2 = fst z * fst z + snd z * snd z /\
    0 <= Cabs z ^ 2.
Proof.
  intros Hlen.
  exists (local_value_sum Pars X logpsi pars σ σp mel).
  pose proof (local_value_kernel_eval logpsi pars σ σp mel Hlen) as Hk.
  split; [exact Hk|].
  split; [unfold local_value_squared_kernel; rewrite Hk; reflexivity|].
  split; [apply Cabs_sqr|].
  rewrite Cabs_sqr. nra.
Qed.

(** ** The chunked kernels *)

Variable vmap_batched : (list X -> C) -> option nat -> list (list X) -> list C.

Lemma bind_chunk_size_cases (fname : string) (kw : kwargs) :
  (exists v, bind_chunk_size fname kw = Ok v) \/
  (exists msg, bind_chunk_size fname kw = Raise (TypeError msg)).
Proof.
  induction kw as [|[name v] rest IH]; simpl.
  - left. now exists None.
  - destruct (String.eqb name "chunk_size").
    + destruct IH as [[w Hw]|[msg Hmsg]].
      * rewrite Hw. left. now exists v.
      * rewrite Hmsg. right. now exists msg.
    + right. eexists. reflexivity.
Qed.

Lemma chunked_rejects_batch_size
      (logpsi : LogPsi Pars X) (pars : Pars) (σ : list (list X))
      (σp : pyobject (list (list (list X)))) (mel : list (list C))
      (chunk_size : option nat) :
  local_valuekernel_chunked Pars X vmap_batched logpsi pars σ σp mel
    [("batch_size"%string, chunk_size)]
  = Raise (TypeError
      "local_valuekernel_chunked() got an unexpected keyword argument 'batch_size'").
Proof. reflexivity. Qed.

Lemma firstn_skipn_app_exact {T : Type} (l1 l2 : list T) :
  firstn (length l1) (l1 ++ l2) = l1 /\ skipn (length l1) (l1 ++ l2) = l2.
Proof.
  induction l1 as [|x l1 [IH1 IH2]]; simpl; [split; reflexivity|].
  split; [now rewrite IH1|exact IH2].
Qed.

Lemma regroup_concat_map (f : list X -> C) (σp : list (list (list X))) :
  regroup σp (map f (concat σp)) = map (map f) σp.
Proof.
  induction σp as [|r rs IH]; simpl; [reflexivity|].
  rewrite map_app.
  destruct (firstn_skipn_app_exact (map f r) (map f (concat rs))) as [H1 H2].
  rewrite length_map in H1, H2. now rewrite H1, H2, IH.
Qed.

(** The value [local_value_kernel] computes on one row of a batch. *)
Lemma local_value_kernel_row
      (logpsi : LogPsi Pars X) (pars : Pars)
      (σ : list X) (σp : list (list X)) (mel : list C) :
  length mel = length σp ->
  local_value_kernel Pars X logpsi pars σ σp mel
  = Ok (ComplexVal
          (Csum (map2 Cmul mel
                      (map (fun x => Cexp (Csub x (logpsi pars σ)))
                           (map (logpsi pars) σp))))).
Proof.
  intros Hlen. unfold local_value_kernel.
  rewrite broadcast2_same_length by (now rewrite !length_map). reflexivity.
Qed.

Lemma chunked_rows (f : list X -> C) :
  forall (mel : list (list C)) (σp : list (list (list X))) (σ : list (list X)),
    Forall2 (fun m sp => length m = length sp) mel σp ->
    length σ = length σp ->
    (prods <- sequence
                (map2 (broadcast2 Cmul) mel
                      (map2 (fun row l => map (fun x => Cexp (Csub x l)) row)
                            (map (map f) σp) (map f σ))) ;;
     Ok (map Csum prods))
    = Ok (map2 (fun s pm =>
                  Csum (map2 Cmul (snd pm)
                             (map (fun x => Cexp (Csub x (f s))) (map f (fst pm)))))
               σ (combine σp mel)).
Proof.
  intros mel σp σ Hall. revert σ.
  induction Hall as [|m sp mel σp Hm Hall IH]; intros [|s σ] Hlen;
    simpl in Hlen; try discriminate; [reflexivity|].
  simpl.
  rewrite broadcast2_same_length by (now rewrite !length_map).
  simpl.
  specialize (IH σ ltac:(lia)).
  destruct (sequence _) as [rest|e]; simpl in IH |- *; [|discriminate].
  inversion IH. reflexivity.
Qed.

(** The chunked kernel that does bind its keyword agrees, row by row, with
    the unchunked kernel, provided the batched map computes what the plain
    map computes. *)
Lemma local_valuekernel_chunked_rows
      (logpsi : LogPsi Pars X) (pars : Pars) (σ : list (list X))
      (σp : list (list (list X))) (mel : list (list C)) (chunk_size : option nat) :
  (forall f c xs, vmap_batched f c xs = map f xs) ->
  Forall2 (fun m sp => length m = length sp) mel σp ->
  length σ = length σp ->
  exists vs,
    local_valuekernel_chunked Pars X vmap_batched logpsi pars σ (Array σp) mel
      [("chunk_size"%string, chunk_size)] = Ok vs /\
    length vs = length σ /\
    forall b s sp m,
      nth_error σ b = Some s -> nth_error σp b = Some sp ->
      nth_error mel b = Some m ->
      exists z, nth_error vs b = Some z /\
                local_value_kernel Pars X logpsi pars s sp m = Ok (ComplexVal z).
Proof.
  intros Hvmap Hall Hlen.
  assert (Hmel : length mel = length σp) by (eapply Forall2_length; eassumption).
  unfold local_valuekernel_chunked. simpl bind_chunk_size. cbn [bind].
  rewrite !Hvmap, regroup_concat_map.
  rewrite broadcast2_same_length by (rewrite !length_map; lia).
  cbn [bind].
  rewrite broadcast2_same_length.
  2:{ clear - Hlen Hmel. revert σ mel Hlen Hmel.
      induction σp as [|sp σp IH]; intros [|s σ] [|m mel] H1 H2;
        simpl in *; try discriminate; try reflexivity.
      f_equal. apply IH; lia. }
  cbn [bind]. rewrite (chunked_rows (logpsi pars) mel σp σ Hall Hlen).
  eexists. split; [reflexivity|]. split.
  - clear - Hlen Hmel. revert σp mel Hlen Hmel.
    induction σ as [|s σ IH]; intros [|sp σp] [|m mel] H1 H2;
      simpl in *; try discriminate; try reflexivity.
    f_equal. apply IH; lia.
  - clear Hlen Hmel. revert σ.
    induction Hall as [|m0 sp0 mel σp Hm Hall IH]; intros σ b s sp m Hs Hsp Hmb.
    + destruct b; discriminate.
    + destruct σ as [|s0 σ]; [destruct b; discriminate|].
      destruct b as [|b]; simpl in Hs, Hsp, Hmb.
      * inversion Hs; inversion Hsp; inversion Hmb; subst.
        eexists. split; [reflexivity|].
        now apply local_value_kernel_row.
      * simpl. eapply IH; eassumption.
Qed.

(** C2, the two wrappers: whatever the input and the chunk size,
    [local_value_squaredkernel_chunked] and [local_value_op_op_cost_chunked]
    raise [TypeError], since they pass [batch_size=] to a function whose
    keyword is [chunk_size]; no value is returned to compare with the
    unchunked kernels. *)
Theorem chunked_wrappers_raise
        (logpsi : LogPsi Pars X) (pars : Pars) (σ : list (list X))
        (σp : list (list (list X))) (mel : list (list C)) (kw : kwargs) :
  (exists msg,
     local_value_squaredkernel_chunked Pars X vmap_batched logpsi pars σ σp mel kw
     = Raise (TypeError msg)) /\
  (exists msg,
     local_value_op_op_cost_chunked Pars X vmap_batched logpsi pars σ σp mel kw
     = Raise (TypeError msg)) /\
  local_value_squaredkernel_chunked Pars X vmap_batched logpsi pars σ σp mel
    [("chunk_size"%string, Some 1%nat)]
  = Raise (TypeError
      "local_valuekernel_chunked() got an unexpected keyword argument 'batch_size'").
Proof.
  split; [|split].
  - unfold local_value_squaredkernel_chunked.
    destruct (bind_chunk_size_cases "local_value_squaredkernel_chunked" kw)
      as [[v Hv]|[msg Hmsg]].
    + rewrite Hv. eexists. reflexivity.
    + rewrite Hmsg. now exists msg.
  - unfold local_value_op_op_cost_chunked.
    destruct (bind_chunk_size_cases "local_value_op_op_cost_chunked" kw)
      as [[v Hv]|[msg Hmsg]].
    + rewrite Hv. eexists. reflexivity.
    + rewrite Hmsg. now exists msg.
  - reflexivity.
Qed.

End KernelFacts.

Lemma local_value_kernel_is_sum_witness :
  Kernels.local_value_kernel unit nat (fun _ _ => (0, 0)%R) tt
    [1%nat] [[1%nat]; [2%nat]] [(1, 0)%R; (2, 0)%R]
  = Ok (Kernels.ComplexVal
          (Kernels.Csum
             (map (fun k => Kernels.Cmul (nth k [(1, 0)%R; (2, 0)%R] (0, 0)%R)
                              (Kernels.Cexp (Kernels.Csub (0, 0)%R (0, 0)%R)))
                  (seq 0 2)))).
Proof.
  apply (local_value_kernel_is_sum unit nat (fun _ _ => (0, 0)%R) tt
           [1%nat] [[1%nat]; [2%nat]] [(1, 0)%R; (2, 0)%R]).
  reflexivity.
Defined.

Lemma local_value_squared_kernel_nonneg_witness :
  exists z : Kernels.C,
    Kernels.local_value_squared_kernel unit nat (fun _ _ => (0, 0)%R) tt
      [1%nat] [[1%nat]; [2%nat]] [(1, 0)%R; (2, 0)%R]
    = Ok (Kernels.FloatVal (Kernels.Cabs z ^ 2)%R) /\
    (0 <= Kernels.Cabs z ^ 2)%R.
Proof.
  destruct (local_value_squared_kernel_nonneg unit nat (fun _ _ => (0, 0)%R) tt
              [1%nat] [[1%nat]; [2%nat]] [(1, 0)%R; (2, 0)%R] eq_refl)
    as (z & _ & Hsq & _ & Hpos).
  exists z. split; assumption.
Defined.


(** * Properties of the dispatch layer and of the expectation driver *)

Section ExpectFacts.

Import Kernels Expect.

Variables Pars MState X Stats OpData : Type.
Variable get_conn_padded :
  operator OpData -> ndarray X -> result (ndarray X * ndarray C).
Variable nkjax_expect :
  (Pars -> list X -> R) ->
  (Pars -> ndarray X -> ndarray X -> ndarray C -> result (list scalar)) ->
  Pars -> ndarray X -> ndarray X -> ndarray C -> nat -> result (scalar * Stats).

Local Abbreviation State := (MCState Pars MState X).
Local Abbreviation get_configs :=
  (get_configs Pars MState X OpData get_conn_padded).
Local Abbreviation expect :=
  (expect Pars MState X Stats OpData get_conn_padded nkjax_expect).
Local Abbreviation _expect := (_expect Pars MState X Stats nkjax_expect).

Lemma check_hilbert_ok (A B : Autoreg.Hilbert) :
  check_hilbert A B = Ok tt <-> hilbert_eqb A B = true.
Proof.
  unfold check_hilbert. destruct (hilbert_eqb A B); simpl; split; intros H;
    try reflexivity; discriminate.
Qed.

Lemma check_hilbert_raise (A B : Autoreg.Hilbert) :
  check_hilbert A B = Raise mismatch <-> hilbert_eqb A B = false.
Proof.
  unfold check_hilbert. destruct (hilbert_eqb A B); simpl; split; intros H;
    try reflexivity; discriminate.
Qed.

Lemma hilbert_eqb_size (A B : Autoreg.Hilbert) :
  Autoreg.size A <> Autoreg.size B -> hilbert_eqb A B = false.
Proof.
  intros Hne. unfold hilbert_eqb.
  destruct (Nat.eqb_spec (Autoreg.size A) (Autoreg.size B)); [contradiction|].
  reflexivity.
Qed.

Lemma hilbert_eqb_refl (A : Autoreg.Hilbert) : hilbert_eqb A A = true.
Proof.
  unfold hilbert_eqb. rewrite !Nat.eqb_refl. simpl.
  induction (Autoreg.local_states A) as [|q t IH]; simpl; [reflexivity|].
  rewrite IH, andb_true_r. apply Qeq_bool_iff. reflexivity.
Qed.

(** C5: [check_hilbert] raises exactly when the two descriptors are not
    equal and returns with no effect when they are; both [get_configs]
    entries run it before [get_conn_padded], so with mismatched Hilbert
    spaces they raise its error whatever [get_conn_padded] would do, and
    [expect] fails with no estimator evaluated. *)
Theorem check_hilbert_guards_expect (vstate : State) (O : operator OpData) :
  hilbert_eqb (vs_hilbert _ _ _ vstate) (op_hilbert OpData O) = false ->
  (forall A B, check_hilbert A B = Ok tt <-> hilbert_eqb A B = true) /\
  (forall A B, check_hilbert A B = Raise mismatch <-> hilbert_eqb A B = false) /\
  (forall parent,
     get_configs_Squared Pars MState X OpData get_conn_padded vstate
       (op_hilbert OpData O) parent = Raise mismatch) /\
  get_configs_DiscreteOperator Pars MState X OpData get_conn_padded vstate O
    = Raise mismatch /\
  (exists e, get_configs vstate O = Raise e) /\
  (exists e, expect vstate O = Raise e) /\
  ((forall h, O <> OtherOperator OpData h) ->
   get_configs vstate O = Raise mismatch /\ expect vstate O = Raise mismatch).
Proof.
  intros Hne.
  assert (Hchk : check_hilbert (vs_hilbert _ _ _ vstate) (op_hilbert OpData O)
                 = Raise mismatch) by (now apply check_hilbert_raise).
  assert (Hsq : forall parent,
             get_configs_Squared Pars MState X OpData get_conn_padded vstate
               (op_hilbert OpData O) parent = Raise mismatch).
  { intros parent. unfold get_configs_Squared. now rewrite Hchk. }
  assert (Hd : get_configs_DiscreteOperator Pars MState X OpData get_conn_padded
                 vstate O = Raise mismatch).
  { unfold get_configs_DiscreteOperator. now rewrite Hchk. }
  assert (Hreg : (forall h, O <> OtherOperator OpData h) ->
                 get_configs vstate O = Raise mismatch).
  { intros Hcat. destruct O as [h body|h parent|h]; simpl.
    - exact Hd.
    - apply (Hsq parent).
    - exfalso. now apply (Hcat h). }
  split; [exact check_hilbert_ok|].
  split; [exact check_hilbert_raise|].
  split; [exact Hsq|].
  split; [exact Hd|].
  assert (Hany : exists e, get_configs vstate O = Raise e).
  { destruct O as [h body|h parent|h].
    - exists mismatch. apply Hreg. intros h' E. discriminate.
    - exists mismatch. apply Hreg. intros h' E. discriminate.
    - eexists. reflexivity. }
  split; [exact Hany|].
  split.
  - destruct Hany as [e He]. exists e. unfold Expect.expect. now rewrite He.
  - intros Hcat. split; [now apply Hreg|].
    unfold Expect.expect. now rewrite (Hreg Hcat).
Qed.

(** ** Shape normalisation in [_expect] *)

Lemma reshape_rows (L Cn N : nat) (d : list X) :
  (0 < N)%nat ->
  reshape (mkArray [L; Cn; N] d) [Infer; Dim N] = Ok (mkArray [L * Cn; N]%nat d).
Proof.
  intros HN. unfold reshape. simpl. rewrite !Nat.mul_1_r.
  replace (L * (Cn * N))%nat with (L * Cn * N)%nat by lia.
  rewrite Nat.Div0.mod_mul, Nat.div_mul by lia.
  destruct (Nat.eqb_spec N 0) as [E|E]; [lia|]. reflexivity.
Qed.

Lemma reshape_connected {T : Type} (L Cn K N : nat) (d : list T) :
  (0 < L * Cn)%nat -> (0 < N)%nat ->
  reshape (mkArray [L; Cn; K; N] d) [Dim (L * Cn); Infer; Dim N]
  = Ok (mkArray [L * Cn; K; N]%nat d).
Proof.
  intros HB HN. unfold reshape. simpl. rewrite !Nat.mul_1_r.
  replace (L * (Cn * (K * N)))%nat with (K * (L * Cn * N))%nat by lia.
  rewrite Nat.Div0.mod_mul, Nat.div_mul by lia.
  destruct (Nat.eqb_spec (L * Cn * N) 0) as [E|E]; [lia|]. reflexivity.
Qed.

Lemma reshape_mels {T : Type} (L Cn K : nat) (d : list T) :
  reshape (mkArray [L; Cn; K] d) (map Dim [L * Cn; K]%nat)
  = Ok (mkArray [L * Cn; K]%nat d).
Proof.
  unfold reshape. simpl. rewrite !Nat.mul_1_r.
  replace (L * (Cn * K))%nat with (L * Cn * K)%nat by lia.
  now rewrite Nat.eqb_refl.
Qed.

(** C4 (as amended): the arrays handed to the statistics reducer are the
    same whether the triple arrives batched by chain or pre-flattened; the
    chain count handed to it is the leading length of [σ] as it arrived.
    Hence the statistics coincide when only [σp] and [mel] are
    pre-flattened, and, when [σ] is pre-flattened as well, they are those
    of a reduction with [batch] in place of [chain-steps] as chain count
    (the same number when there is one chain). *)
Theorem expect_flattening
        (kernel : Kernel Pars X) (model_apply_fun : ModelVars Pars MState -> list X -> C)
        (machine_pow : Z) (pars : Pars) (model_state : MState)
        (L Cn K N : nat) (dσ dσp : list X) (dmels : list C) :
  (0 < L)%nat -> (0 < Cn)%nat -> (0 < N)%nat ->
  let B := (L * Cn)%nat in
  let σ3 := mkArray [L; Cn; N] dσ in
  let σp4 := mkArray [L; Cn; K; N] dσp in
  let mels3 := mkArray [L; Cn; K] dmels in
  let σ2 := mkArray [B; N] dσ in
  let σp3 := mkArray [B; K; N] dσp in
  let mels2 := mkArray [B; K] dmels in
  let reduce := fun n_chains =>
    r <- nkjax_expect
           (fun w σ => (IZR machine_pow * fst (model_apply_fun (w, model_state) σ))%R)
           (local_value_vmap Pars X kernel
              (fun w σ => model_apply_fun (w, model_state) σ))
           pars σ2 σp3 mels2 n_chains ;;
    Ok (snd r) in
  _expect kernel model_apply_fun machine_pow pars model_state σ3 σp4 mels3 = reduce L /\
  _expect kernel model_apply_fun machine_pow pars model_state σ3 σp3 mels2 = reduce L /\
  _expect kernel model_apply_fun machine_pow pars model_state σ2 σp3 mels2 = reduce B /\
  _expect kernel model_apply_fun machine_pow pars model_state σ2 σp4 mels3 = reduce B /\
  (Cn = 1%nat ->
   _expect kernel model_apply_fun machine_pow pars model_state σ3 σp4 mels3
   = _expect kernel model_apply_fun machine_pow pars model_state σ2 σp3 mels2).
Proof.
  intros HL HC HN B σ3 σp4 mels3 σ2 σp3 mels2 reduce.
  assert (HB : (0 < L * Cn)%nat) by lia.
  assert (H1 : _expect kernel model_apply_fun machine_pow pars model_state σ3 σp4 mels3
               = reduce L).
  { unfold Expect._expect, σ3, σp4, mels3. cbn [ndim shape length Nat.eqb negb last_dim last bind].
    rewrite reshape_rows by exact HN. cbn [bind shape first_dim].
    rewrite (reshape_connected L Cn K N dσp HB HN). cbn [bind shape removelast].
    rewrite (reshape_mels L Cn K dmels). reflexivity. }
  assert (H2 : _expect kernel model_apply_fun machine_pow pars model_state σ3 σp3 mels2
               = reduce L).
  { unfold Expect._expect, σ3, σp3, mels2. cbn [ndim shape length Nat.eqb negb last_dim last bind].
    rewrite reshape_rows by exact HN. reflexivity. }
  assert (H3 : _expect kernel model_apply_fun machine_pow pars model_state σ2 σp3 mels2
               = reduce B) by reflexivity.
  assert (H4 : _expect kernel model_apply_fun machine_pow pars model_state σ2 σp4 mels3
               = reduce B).
  { unfold Expect._expect, σ2, σp4, mels3. cbn [ndim shape length Nat.eqb negb last_dim last bind first_dim].
    unfold B. rewrite (reshape_connected L Cn K N dσp HB HN). cbn [bind shape removelast].
    rewrite (reshape_mels L Cn K dmels). reflexivity. }
  repeat split; try assumption.
  intros HC1. rewrite H1, H3. unfold B. subst Cn. now rewrite Nat.mul_1_r.
Qed.

End ExpectFacts.

Lemma check_hilbert_guards_expect_witness :
  Expect.expect unit unit unit nat unit Expect.unreachable_conn
    Expect.chain_count_reducer Expect.two_site_state Expect.three_site_operator
  = Raise Expect.mismatch.
Proof.
  apply (check_hilbert_guards_expect unit unit unit nat unit Expect.unreachable_conn
           Expect.chain_count_reducer Expect.two_site_state
           Expect.three_site_operator eq_refl).
  intros h E. discriminate.
Defined.

(** C4, with one chain step and two chains: the chain-batched run hands
    the reducer the chain count 1, the pre-flattened run hands it 2, and a
    reducer whose statistics depend on the chain count tells them apart. *)
Lemma expect_flattening_counterexample :
  Expect._expect unit unit unit nat Expect.chain_count_reducer
    (Kernels.local_value_kernel unit unit) Expect.constant_model 2 tt tt
    (Expect.mkArray [1; 2; 1] [tt; tt]) (Expect.mkArray [1; 2; 1; 1] [tt; tt])
    (Expect.mkArray [1; 2; 1] [(1, 0)%R; (1, 0)%R])
  = Ok 1%nat /\
  Expect._expect unit unit unit nat Expect.chain_count_reducer
    (Kernels.local_value_kernel unit unit) Expect.constant_model 2 tt tt
    (Expect.mkArray [2; 1] [tt; tt]) (Expect.mkArray [2; 1; 1] [tt; tt])
    (Expect.mkArray [2; 1] [(1, 0)%R; (1, 0)%R])
  = Ok 2%nat.
Proof. split; reflexivity. Qed.

Lemma expect_flattening_witness :
  Expect._expect unit unit unit nat Expect.chain_count_reducer
    (Kernels.local_value_kernel unit unit) Expect.constant_model 2 tt tt
    (Expect.mkArray [1; 2; 1] [tt; tt]) (Expect.mkArray [1; 2; 1; 1] [tt; tt])
    (Expect.mkArray [1; 2; 1] [(1, 0)%R; (1, 0)%R])
  = Expect._expect unit unit unit nat Expect.chain_count_reducer
      (Kernels.local_value_kernel unit unit) Expect.constant_model 2 tt tt
      (Expect.mkArray [1; 2; 1] [tt; tt]) (Expect.mkArray [2; 1; 1] [tt; tt])
      (Expect.mkArray [2; 1] [(1, 0)%R; (1, 0)%R]).
Proof.
  destruct (expect_flattening unit unit unit nat Expect.chain_count_reducer
              (Kernels.local_value_kernel unit unit) Expect.constant_model 2 tt tt
              1 2 1 1 [tt; tt] [tt; tt] [(1, 0)%R; (1, 0)%R])
    as (H1 & H2 & _); try lia.
  exact (eq_trans H1 (eq_sym H2)).
Defined.

(** * Further properties of the batched categorical sampler *)

Section BatchChoiceMore.

Import Autoreg.
Local Open Scope Q_scope.

Variable Key : Type.
Variable A : Type.
Variable uniform : Key -> nat -> nat -> Q.
Variable dflt : A.

Lemma row_index_reaches (u : Q) (row : list Q) :
  Forall (fun w => 0 <= w) row -> 0 < Qsum row -> u < 1 ->
  (row_index u row < length row)%nat /\
  last (cumsum row) 0 * u <= nth (row_index u row) (cumsum row) 0 /\
  forall k, (k < row_index u row)%nat ->
            nth k (cumsum row) 0 < last (cumsum row) 0 * u.
Proof.
  intros Hnn Hpos Hu1.
  pose proof (positive_sum_nonempty row Hpos) as Hne.
  pose proof (row_index_in_bounds u row Hpos Hu1) as Hidx.
  destruct (cumsum_from_sorted row Hnn 0) as [Hsorted _].
  fold (cumsum row) in Hsorted.
  pose proof (count_below_sorted (last (cumsum row) 0 * u) (cumsum row) Hsorted)
    as Hcount.
  simpl in Hcount.
  rewrite <- (row_index_nonempty u row Hne) in Hcount.
  destruct Hcount as [Hlt Hge].
  split; [exact Hidx|]. split; [|exact Hlt].
  apply Hge. unfold cumsum. rewrite cumsum_from_length. lia.
Qed.

Lemma Qsum_firstn_S (row : list Q) :
  forall k, (k < length row)%nat ->
    Qsum (firstn (S k) row) == Qsum (firstn k row) + nth k row 0.
Proof.
  induction row as [|w t IH]; intros k Hk; simpl in Hk; [lia|].
  destruct k as [|k].
  - simpl. ring.
  - change (firstn (S (S k)) (w :: t)) with (w :: firstn (S k) t).
    change (firstn (S k) (w :: t)) with (w :: firstn k t).
    change (nth (S k) (w :: t) 0) with (nth k t 0).
    change (Qsum (w :: firstn (S k) t)) with (w + Qsum (firstn (S k) t)).
    change (Qsum (w :: firstn k t)) with (w + Qsum (firstn k t)).
    rewrite IH by lia. ring.
Qed.

(** A draw [0 < u < 1] never selects a category of zero weight. *)
Theorem batch_choice_positive_weight
        (key : Key) (a : list A) (p : list (list Q)) (i : nat) (row : list Q) :
  0 < uniform key (length p) i /\ uniform key (length p) i < 1 ->
  nth_error p i = Some row ->
  Forall (fun w => 0 <= w) row ->
  0 < Qsum row ->
  exists idx,
    nth_error (choice_indices Key uniform key p) i = Some idx /\
    nth_error (batch_choice Key A uniform dflt key a p) i = Some (take dflt a idx) /\
    (idx < length row)%nat /\
    0 < nth idx row 0.
Proof.
  intros [Hu0 Hu1] Hrow Hnn Hpos.
  set (u := uniform key (length p) i) in *.
  destruct (row_index_reaches u row Hnn Hpos Hu1) as (Hidx & Hge & Hlt).
  exists (row_index u row).
  split; [rewrite nth_error_choice_indices, Hrow; reflexivity|].
  split; [rewrite nth_error_batch_choice, Hrow; reflexivity|].
  split; [exact Hidx|].
  assert (Hr0 : 0 < last (cumsum row) 0 * u).
  { apply Qmult_lt_0_compat; [rewrite total_is_sum; exact Hpos|exact Hu0]. }
  unfold cumsum in Hge, Hlt.
  rewrite nth_cumsum_from in Hge by exact Hidx.
  rewrite Qsum_firstn_S in Hge by exact Hidx.
  destruct (row_index u row) as [|k] eqn:E.
  - simpl in Hge. fold (cumsum row) in Hge. Lqa.lra.
  - specialize (Hlt k ltac:(lia)).
    rewrite nth_cumsum_from in Hlt by lia.
    fold (cumsum row) in Hge, Hlt. Lqa.lra.
Qed.

Lemma Qgtb_scale (c t t' x x' u : Q) :
  0 < c -> t' == c * t -> x' == c * x ->
  Qgtb (t' * u) x' = Qgtb (t * u) x.
Proof.
  intros Hc Ht Hx. apply eq_true_iff_eq. rewrite !Qgtb_true.
  rewrite Ht, Hx.
  assert (E : c * t * u == c * (t * u)) by ring.
  rewrite E. apply Qmult_lt_l. exact Hc.
Qed.

Lemma cumsum_from_scale (c : Q) (row : list Q) :
  forall acc acc', acc' == c * acc ->
    Forall2 (fun x x' => x' == c * x)
            (cumsum_from acc row) (cumsum_from acc' (map (Qmult c) row)).
Proof.
  induction row as [|w t IH]; intros acc acc' Hacc; simpl; constructor.
  - rewrite Hacc. ring.
  - apply IH. rewrite Hacc. ring.
Qed.

Lemma last_slice_Forall2 (R : Q -> Q -> Prop) (l l' : list Q) :
  Forall2 R l l' -> Forall2 R (last_slice l) (last_slice l').
Proof.
  induction 1 as [|x x' t t' Hx Ht IH]; [constructor|].
  destruct Ht as [|y y' t t' Hy Ht].
  - simpl. constructor; [exact Hx|constructor].
  - exact IH.
Qed.

Lemma row_index_scale (c u : Q) (row : list Q) :
  0 < c -> row_index u (map (Qmult c) row) = row_index u row.
Proof.
  intros Hc. unfold row_index, row_r, cumsum.
  assert (Hz : 0 == c * 0) by ring.
  pose proof (cumsum_from_scale c row 0 0 Hz) as Hcs.
  pose proof (last_slice_Forall2 _ _ _ Hcs) as Hlast.
  f_equal.
  destruct Hlast as [|t t' rest rest' Ht _]; [reflexivity|].
  simpl.
  clear - Hc Ht Hcs.
  induction Hcs as [|x x' l l' Hx Hl IH]; simpl; [reflexivity|].
  rewrite IH. f_equal. now apply Qgtb_scale with (c := c).
Qed.

Lemma choice_indices_scale (key : Key) (n : nat) (p p' : list (list Q)) :
  Forall2 (fun row row' => exists c, 0 < c /\ row' = map (Qmult c) row) p p' ->
  forall s,
    map (fun ir => row_index (uniform key n (fst ir)) (snd ir)) (enumerate_from s p')
    = map (fun ir => row_index (uniform key n (fst ir)) (snd ir)) (enumerate_from s p).
Proof.
  induction 1 as [|row row' t t' (c & Hc & Hrow) Ht IH]; intros s; simpl;
    [reflexivity|].
  rewrite IH. f_equal. subst row'. now apply row_index_scale.
Qed.

(** The weights may be unnormalised: multiplying each row by a positive
    factor of its own leaves the samples unchanged. *)
Theorem batch_choice_scale_invariant
        (key : Key) (a : list A) (p p' : list (list Q)) :
  Forall2 (fun row row' => exists c, 0 < c /\ row' = map (Qmult c) row) p p' ->
  batch_choice Key A uniform dflt key a p' = batch_choice Key A uniform dflt key a p.
Proof.
  intros Hrel. unfold batch_choice, choice_indices, enumerate.
  rewrite <- (Forall2_length Hrel).
  now rewrite (choice_indices_scale key (length p) p p' Hrel 0%nat).
Qed.

End BatchChoiceMore.

Lemma batch_choice_positive_weight_witness :
  exists idx,
    nth_error (Autoreg.choice_indices unit Autoreg.half_draw tt [[0; 1; 0; 3]%Q]) 0
      = Some idx /\
    (0 < nth idx [0; 1; 0; 3]%Q 0)%Q.
Proof.
  destruct (batch_choice_positive_weight unit Z Autoreg.half_draw 0%Z tt
              [10; 20; 30; 40]%Z [[0; 1; 0; 3]%Q] 0%nat [0; 1; 0; 3]%Q)
    as (idx & H1 & _ & _ & H4).
  - split; reflexivity.
  - reflexivity.
  - repeat constructor; discriminate.
  - reflexivity.
  - exists idx. split; assumption.
Defined.

Lemma batch_choice_scale_invariant_witness :
  Autoreg.batch_choice unit Z Autoreg.half_draw 0%Z tt [10; 20]%Z
    [[2; 6]%Q; [5; 5]%Q]
  = Autoreg.batch_choice unit Z Autoreg.half_draw 0%Z tt [10; 20]%Z
      [[1; 3]%Q; [1; 1]%Q].
Proof.
  apply (batch_choice_scale_invariant unit Z Autoreg.half_draw 0%Z tt [10; 20]%Z
           [[1; 3]%Q; [1; 1]%Q] [[2; 6]%Q; [5; 5]%Q]).
  constructor; [exists 2%Q; split; reflexivity|].
  constructor; [exists 5%Q; split; reflexivity|].
  constructor.
Defined.

(** * Further properties of the sampling loop *)

Section SampleChainMore.

Import Autoreg.

Variable Key : Type.
Variables Coll Cache : Type.
Variable split : Key -> nat -> list Key.
Variable uniform : Key -> nat -> nat -> Q.
Variable model_init : Key -> list (list Q) -> nat -> Variables Coll Cache.
Variable model_apply :
  Variables Coll Cache -> list (list Q) -> nat -> list (list Q) * option Cache.
Variable cache_truthy : Cache -> bool.
Variable cache_same_tree : Cache -> Cache -> bool.

Local Abbreviation scan_fun := (scan_fun Key Coll Cache split uniform model_apply cache_truthy).
Local Abbreviation carry_same := (carry_same Key Cache cache_same_tree).
Local Abbreviation same_cache := (same_cache Cache cache_same_tree).
Local Abbreviation _sample_chain :=
  (_sample_chain Key Coll Cache split uniform model_init model_apply cache_truthy
                 cache_same_tree).
Local Abbreviation _sample_next :=
  (_sample_next Key Coll Cache split uniform model_init model_apply cache_truthy
                cache_same_tree).

Lemma set_at_length (row : list Q) :
  forall index v, length (set_at row index v) = length row.
Proof.
  induction row as [|x t IH]; intros [|i] v; simpl; try reflexivity.
  now rewrite IH.
Qed.

Lemma nth_set_at_same (row : list Q) :
  forall index v d, (index < length row)%nat -> nth index (set_at row index v) d = v.
Proof.
  induction row as [|x t IH]; intros [|i] v d Hi; simpl in *; try lia;
    [reflexivity|].
  apply IH. lia.
Qed.

Lemma nth_set_at_other (row : list Q) :
  forall index v d j, j <> index -> nth j (set_at row index v) d = nth j row d.
Proof.
  induction row as [|x t IH]; intros [|i] v d [|j] Hne; simpl; try reflexivity;
    try congruence.
  apply IH. congruence.
Qed.

Lemma set_column_rowwise_rows (index : nat) :
  forall σ vs σ',
    set_column_rowwise σ index vs = Ok σ' ->
    Forall2 (fun row row' => exists v, In v vs /\ row' = set_at row index v) σ σ'.
Proof.
  induction σ as [|row σ IH]; intros [|v vs] σ' H; simpl in H; try discriminate.
  - inversion H. constructor.
  - destruct (set_column_rowwise σ index vs) as [rest|e] eqn:E; simpl in H;
      [|discriminate].
    inversion H; subst. constructor.
    + exists v. split; [now left|reflexivity].
    + eapply Forall2_impl; [|apply (IH vs rest E)].
      intros r r' (w & Hw & Hr). exists w. split; [now right|exact Hr].
Qed.

Lemma set_column_rows (index : nat) (σ : list (list Q)) (vs : list Q)
      (σ' : list (list Q)) :
  set_column σ index vs = Ok σ' ->
  Forall2 (fun row row' => exists v, In v vs /\ row' = set_at row index v) σ σ'.
Proof.
  unfold set_column. destruct vs as [|v [|w vs]].
  - apply set_column_rowwise_rows.
  - intros H. inversion H; subst. clear H.
    induction σ as [|row σ IH]; simpl; constructor; [|exact IH].
    exists v. split; [now left|reflexivity].
  - apply set_column_rowwise_rows.
Qed.

Lemma set_column_rowwise_returns (index : nat) :
  forall σ vs, length vs = length σ ->
    exists σ', set_column_rowwise σ index vs = Ok σ'.
Proof.
  induction σ as [|row σ IH]; intros [|v vs] Hlen; simpl in Hlen; try discriminate.
  - now exists [].
  - destruct (IH vs ltac:(lia)) as [rest Hrest].
    simpl. rewrite Hrest. simpl. eexists. reflexivity.
Qed.

Lemma set_column_returns (index : nat) (σ : list (list Q)) (vs : list Q) :
  length vs = length σ -> exists σ', set_column σ index vs = Ok σ'.
Proof.
  intros Hlen. unfold set_column. destruct vs as [|v [|w vs]].
  - now apply set_column_rowwise_returns.
  - eexists. reflexivity.
  - now apply set_column_rowwise_returns.
Qed.

Lemma take_In {T : Type} (d : T) (a : list T) (i : nat) :
  a <> [] -> In (take d a i) a.
Proof.
  intros Hne. unfold take. apply nth_In.
  destruct a; [congruence|]. simpl. lia.
Qed.

Lemma batch_choice_In (k : Key) (a : list Q) (p : list (list Q)) (v : Q) :
  a <> [] -> In v (batch_choice Key Q uniform 0%Q k a p) -> In v a.
Proof.
  intros Hne Hin. unfold batch_choice in Hin.
  apply in_map_iff in Hin. destruct Hin as (i & Hv & _). subst v.
  now apply take_In.
Qed.

(** What one pass of the loop body does to the buffer: every row gets one
    value written at [index]. *)
Lemma scan_fun_rows sampler variables σ c k index σ1 c1 k1 y :
  scan_fun sampler variables (σ, c, k) index = Ok ((σ1, c1, k1), y) ->
  Forall2 (fun row row1 =>
             exists v, (local_states (hilbert sampler) <> [] ->
                        In v (local_states (hilbert sampler))) /\
                       row1 = set_at row index v) σ σ1.
Proof.
  unfold Autoreg.scan_fun.
  destruct (split2 Key split k) as [[new_key k']|e]; simpl; [|discriminate].
  destruct (model_apply _ σ index) as [p mutables].
  destruct (set_column σ index _) as [σ'|e] eqn:E; simpl; [|discriminate].
  intros H. inversion H; subst.
  eapply Forall2_impl; [|apply (set_column_rows _ _ _ _ E)].
  intros r r' (v & Hv & Hr). exists v. split; [|exact Hr].
  intros Hne. eapply batch_choice_In; eassumption.
Qed.

Lemma Forall2_compose {T U V : Type} (R1 : T -> U -> Prop) (R2 : U -> V -> Prop)
      (R3 : T -> V -> Prop) :
  (forall x y z, R1 x y -> R2 y z -> R3 x z) ->
  forall l1 l2 l3, Forall2 R1 l1 l2 -> Forall2 R2 l2 l3 -> Forall2 R3 l1 l3.
Proof.
  intros Hcomp l1 l2 l3 H12. revert l3.
  induction H12 as [|x y l1 l2 Hxy H12 IH]; intros l3 H23;
    inversion H23; subst; constructor.
  - eapply Hcomp; eassumption.
  - now apply IH.
Qed.

Lemma Forall2_same {T : Type} (R : T -> T -> Prop) (l : list T) :
  (forall x, R x x) -> Forall2 R l l.
Proof.
  intros Hrefl. induction l; constructor; auto.
Qed.

(** The buffer after the sites [s, ..., s + n - 1] have been visited. *)
Lemma scan_steps_rows sampler variables :
  forall n s init final ys,
    scan_steps carry_same (scan_fun sampler variables) init (seq s n) = Ok (final, ys) ->
    Forall2 (visited (local_states (hilbert sampler)) s n)
            (fst (fst init)) (fst (fst final)).
Proof.
  induction n as [|n IH]; intros s init final ys H; simpl in H.
  - inversion H; subst. apply Forall2_same.
    intros row. repeat split; intros; try reflexivity; lia.
  - destruct (scan_fun sampler variables init s) as [[carry y]|e] eqn:E;
      simpl in H; [|discriminate].
    destruct (carry_same init carry); [|discriminate].
    destruct (scan_steps carry_same (scan_fun sampler variables) carry (seq (S s) n))
      as [[final' ys']|e] eqn:E'; simpl in H; [|discriminate].
    inversion H; subst.
    destruct init as [[σ c] k], carry as [[σ1 c1] k1].
    pose proof (scan_fun_rows _ _ _ _ _ _ _ _ _ _ E) as Hstep.
    pose proof (IH _ _ _ _ E') as Hrest. simpl in Hrest |- *.
    eapply Forall2_compose; [|exact Hstep|exact Hrest].
    clear. intros row row1 row' (v & Hv & Hrow1) (Hlen & Hout & Hin). subst row1.
    rewrite set_at_length in Hlen, Hin.
    split; [exact Hlen|]. split.
    + intros j Hj. rewrite Hout by lia. apply nth_set_at_other. lia.
    + intros Hne j Hj Hjlen.
      destruct (Nat.eq_dec j s) as [->|Hjs].
      * rewrite Hout by lia. rewrite nth_set_at_same by exact Hjlen. now apply Hv.
      * apply Hin; [exact Hne|lia|exact Hjlen].
Qed.

Lemma scan_rows sampler variables (n s : nat) init final ys (x0 : nat) :
  scan carry_same (scan_fun sampler variables) init (seq s n) x0 = Ok (final, ys) ->
  Forall2 (visited (local_states (hilbert sampler)) s n)
          (fst (fst init)) (fst (fst final)).
Proof.
  destruct n as [|n].
  - unfold scan. cbn [seq].
    destruct (scan_fun sampler variables init x0) as [r|e]; cbn [bind]; [|discriminate].
    destruct (carry_same init (fst r)); [|discriminate].
    intros H. inversion H; subst. apply Forall2_same.
    intros row. repeat split; intros; try reflexivity; lia.
  - intros H. apply (scan_steps_rows sampler variables (S n) s init final ys). exact H.
Qed.

Lemma group_rows_length {T : Type} (count width : nat) :
  forall rows : list T, length (group_rows count width rows) = count.
Proof.
  induction count as [|c IH]; intros rows; simpl; [reflexivity|]. now rewrite IH.
Qed.

Lemma group_rows_widths {T : Type} (count width : nat) :
  forall rows : list T, length rows = (count * width)%nat ->
    Forall (fun g => length g = width) (group_rows count width rows).
Proof.
  induction count as [|c IH]; intros rows Hlen; simpl; constructor.
  - rewrite length_firstn. simpl in Hlen. lia.
  - apply IH. rewrite length_skipn. simpl in Hlen. lia.
Qed.

Lemma group_rows_Forall {T : Type} (P : T -> Prop) (count width : nat) :
  forall rows : list T, Forall P rows ->
    Forall (Forall P) (group_rows count width rows).
Proof.
  induction count as [|c IH]; intros rows Hall; simpl; constructor.
  - rewrite Forall_forall in *. intros x Hx. apply Hall.
    rewrite <- (firstn_skipn width rows). apply in_or_app. now left.
  - apply IH. rewrite Forall_forall in *. intros x Hx. apply Hall.
    rewrite <- (firstn_skipn width rows). apply in_or_app. now right.
Qed.

Lemma group_rows_concat {T : Type} (count width : nat) :
  forall rows : list T, length rows = (count * width)%nat ->
    concat (group_rows count width rows) = rows.
Proof.
  induction count as [|c IH]; intros rows Hlen; simpl in *.
  - apply length_zero_iff_nil in Hlen. now subst.
  - rewrite IH by (rewrite length_skipn; lia). apply firstn_skipn.
Qed.

(** What [_sample_chain] returns, in terms of the zero-filled buffer and
    the buffer left by the site loop. *)
Lemma sample_chain_buffer sampler variables state chain_length σ new_state :
  _sample_chain sampler variables state chain_length = Ok (σ, new_state) ->
  exists buffer,
    Forall2 (visited (local_states (hilbert sampler)) 0 (size (hilbert sampler)))
            (repeat (repeat 0%Q (size (hilbert sampler)))
                    (chain_length * n_chains_per_rank sampler))
            buffer /\
    σ = group_rows chain_length (n_chains_per_rank sampler) buffer.
Proof.
  unfold Autoreg._sample_chain.
  destruct (split3 Key split (key state)) as [[[new_key key_init] key_scan]|e];
    cbn [bind]; [|discriminate].
  match goal with
  | |- context [scan ?same ?f ?i ?xs ?x0] =>
      destruct (scan same f i xs x0) as [[final ys]|e] eqn:E
  end; cbn [bind]; [|discriminate].
  destruct final as [[σb cb] kb]. intros H. inversion H; subst.
  exists σb. split; [|reflexivity].
  apply scan_rows in E. exact E.
Qed.

(** The samples have the shape (chain_length, n_chains_per_rank,
    hilbert.size), and flattening the leading two axes gives back the rows of
    the buffer in order. *)
Theorem sample_chain_shape sampler variables state chain_length σ new_state :
  _sample_chain sampler variables state chain_length = Ok (σ, new_state) ->
  length σ = chain_length /\
  Forall (fun step => length step = n_chains_per_rank sampler /\
                      Forall (fun row => length row = size (hilbert sampler)) step) σ /\
  length (concat σ) = (chain_length * n_chains_per_rank sampler)%nat.
Proof.
  intros H. destruct (sample_chain_buffer _ _ _ _ _ _ H) as (buffer & Hvis & ->).
  assert (Hlen : length buffer = (chain_length * n_chains_per_rank sampler)%nat).
  { rewrite <- (Forall2_length Hvis). apply repeat_length. }
  assert (Hrows : Forall (fun row => length row = size (hilbert sampler)) buffer).
  { clear - Hvis. remember (repeat _ _) as init eqn:Hinit.
    assert (Hinit' : Forall (fun row => length row = size (hilbert sampler)) init).
    { subst init. rewrite Forall_forall. intros row Hrow.
      apply repeat_spec in Hrow. subst row. apply repeat_length. }
    clear Hinit. induction Hvis as [|row row' l l' (Hl & _) Hvis IH]; constructor.
    - inversion Hinit'; subst. congruence.
    - apply IH. now inversion Hinit'. }
  split; [apply group_rows_length|]. split.
  - pose proof (group_rows_widths chain_length _ buffer Hlen) as Hw.
    pose proof (group_rows_Forall _ chain_length (n_chains_per_rank sampler)
                  buffer Hrows) as Hr.
    rewrite Forall_forall in Hw, Hr. rewrite Forall_forall.
    intros step Hstep. split; [now apply Hw|now apply Hr].
  - now rewrite group_rows_concat.
Qed.

(** Every cell of the samples is one of the local states of the Hilbert
    space: no cell of the zero-filled buffer survives the site loop. *)
Theorem sample_chain_local_states sampler variables state chain_length σ new_state :
  local_states (hilbert sampler) <> [] ->
  _sample_chain sampler variables state chain_length = Ok (σ, new_state) ->
  Forall (Forall (Forall (fun x => In x (local_states (hilbert sampler))))) σ.
Proof.
  intros Hne H. destruct (sample_chain_buffer _ _ _ _ _ _ H) as (buffer & Hvis & ->).
  apply group_rows_Forall.
  remember (repeat _ _) as init eqn:Hinit.
  assert (Hinit' : Forall (fun row => length row = size (hilbert sampler)) init).
  { subst init. rewrite Forall_forall. intros row Hrow.
    apply repeat_spec in Hrow. subst row. apply repeat_length. }
  clear Hinit H.
  induction Hvis as [|row row' l l' (Hl & _ & Hin) Hvis IH]; constructor.
  - inversion Hinit' as [|? ? Hrow _]; subst.
    rewrite Forall_forall. intros x Hx.
    apply In_nth with (d := 0%Q) in Hx. destruct Hx as (j & Hj & Hx).
    rewrite <- Hx. apply Hin; [exact Hne|lia|lia].
  - apply IH. now inversion Hinit'.
Qed.

(** ** Termination with a result *)

Lemma scan_fun_returns sampler variables carry index :
  (forall k, length (split k 2) = 2%nat) ->
  (forall v σ i, length (fst (model_apply v σ i)) = length σ) ->
  exists σ' v k',
    scan_fun sampler variables carry index
    = Ok ((σ', snd (model_apply v (fst (fst carry)) index), k'), tt).
Proof.
  intros Hsplit Hmodel. destruct carry as [[σ c] k]. unfold Autoreg.scan_fun.
  unfold split2. specialize (Hsplit k).
  destruct (split k 2) as [|a [|b [|x t]]]; simpl in Hsplit; try lia.
  cbn [bind fst snd].
  match goal with
  | |- context [model_apply ?v σ index] =>
      pose proof (Hmodel v σ index) as Hp; set (vars := v) in *;
      destruct (model_apply vars σ index) as [p m] eqn:Em
  end.
  simpl in Hp.
  destruct (set_column_returns index σ
              (batch_choice Key Q uniform 0%Q b (local_states (hilbert sampler)) p))
    as [σ' Hσ'].
  { now rewrite batch_choice_length. }
  rewrite Hσ'. cbn [bind]. exists σ', vars, a. now rewrite Em.
Qed.

Lemma carry_same_cache (init carry : Carry Key Cache) :
  carry_same init carry = same_cache (snd (fst init)) (snd (fst carry)).
Proof. reflexivity. Qed.

Lemma scan_steps_returns sampler variables :
  (forall k, length (split k 2) = 2%nat) ->
  (forall v σ i, length (fst (model_apply v σ i)) = length σ) ->
  (forall v σ i v' σ' i',
     same_cache (snd (model_apply v σ i)) (snd (model_apply v' σ' i')) = true) ->
  forall xs init,
    (forall v σ i, same_cache (snd (fst init)) (snd (model_apply v σ i)) = true) ->
    exists final ys,
      scan_steps carry_same (scan_fun sampler variables) init xs = Ok (final, ys).
Proof.
  intros Hsplit Hmodel Hkeep. induction xs as [|x xs IH]; intros init Hinit; simpl.
  - eexists. eexists. reflexivity.
  - destruct (scan_fun_returns sampler variables init x Hsplit Hmodel)
      as (σ' & v & k' & E).
    rewrite E. cbn [bind].
    rewrite carry_same_cache. cbn [fst snd]. rewrite Hinit.
    destruct (IH (σ', snd (model_apply v (fst (fst init)) x), k'))
      as (final & ys & E').
    { intros v1 σ1 i1. cbn [fst snd]. apply Hkeep. }
    rewrite E'. cbn [bind]. eexists. eexists. reflexivity.
Qed.

Lemma scan_returns sampler variables :
  (forall k, length (split k 2) = 2%nat) ->
  (forall v σ i, length (fst (model_apply v σ i)) = length σ) ->
  (forall v σ i v' σ' i',
     same_cache (snd (model_apply v σ i)) (snd (model_apply v' σ' i')) = true) ->
  forall xs init (x0 : nat),
    (forall v σ i, same_cache (snd (fst init)) (snd (model_apply v σ i)) = true) ->
    exists final ys,
      scan carry_same (scan_fun sampler variables) init xs x0 = Ok (final, ys).
Proof.
  intros Hsplit Hmodel Hkeep xs init x0 Hinit. destruct xs as [|x xs].
  - unfold scan.
    destruct (scan_fun_returns sampler variables init x0 Hsplit Hmodel)
      as (σ' & v & k' & E).
    rewrite E. cbn [bind]. rewrite carry_same_cache. cbn [fst snd].
    rewrite Hinit. eexists. eexists. reflexivity.
  - apply (scan_steps_returns sampler variables Hsplit Hmodel Hkeep (x :: xs) init Hinit).
Qed.


(** A model that has no cache when initialised and returns one from its
    conditional changes the structure of the carry: the scan refuses it. *)
Lemma sample_chain_cache_appears sampler variables state chain_length :
  (forall k n, length (split k n) = n) ->
  (forall v σ i, length (fst (model_apply v σ i)) = length σ) ->
  (forall k σ, _init_cache Key Coll Cache model_init σ k = None) ->
  (forall v σ i, snd (model_apply v σ i) <> None) ->
  exists msg,
    _sample_chain sampler variables state chain_length = Raise (TypeError msg).
Proof.
  intros Hsplit Hmodel Hinit Hlate.
  unfold Autoreg._sample_chain, split3.
  pose proof (Hsplit (key state) 3%nat) as H3.
  destruct (split (key state) 3) as [|a [|b [|c [|x t]]]]; simpl in H3; try lia.
  cbn [bind]. rewrite Hinit.
  assert (Hstep : forall σ k index, exists σ' v k',
            scan_fun sampler (pop_cache Coll Cache variables) (σ, None, k) index
            = Ok ((σ', snd (model_apply v σ index), k'), tt) /\
            carry_same (σ, None, k) (σ', snd (model_apply v σ index), k') = false).
  { intros σ k index.
    destruct (scan_fun_returns sampler (pop_cache Coll Cache variables) (σ, None, k)
                index (fun k0 => Hsplit k0 2%nat) Hmodel) as (σ' & v & k' & E).
    exists σ', v, k'. split; [exact E|].
    rewrite carry_same_cache. cbn [fst snd].
    specialize (Hlate v σ index).
    destruct (snd (model_apply v σ index)); [reflexivity|congruence]. }
  unfold scan. destruct (seq 0 (size (hilbert sampler))) as [|x xs].
  - match goal with
    | |- context [scan_fun _ _ (?σ, None, ?k) ?i] =>
        destruct (Hstep σ k i) as (σ' & v & k' & E & Hc)
    end.
    rewrite E. cbn [bind fst]. rewrite Hc. eexists. reflexivity.
  - cbn [scan_steps].
    match goal with
    | |- context [scan_fun _ _ (?σ, None, ?k) ?i] =>
        destruct (Hstep σ k i) as (σ' & v & k' & E & Hc)
    end.
    rewrite E. cbn [bind]. rewrite Hc. eexists. reflexivity.
Qed.

(** [_sample_next] is one step of [_sample_chain] with the leading axis
    dropped: the squeeze never fails, the state is the one [_sample_chain]
    returns, and the sample has shape (n_chains_per_rank, hilbert.size). *)
Theorem sample_next_is_one_step sampler variables state σ3 new_state :
  _sample_chain sampler variables state 1 = Ok (σ3, new_state) ->
  exists σ,
    σ3 = [σ] /\
    _sample_next sampler variables state = Ok (new_state, σ) /\
    length σ = n_chains_per_rank sampler /\
    Forall (fun row => length row = size (hilbert sampler)) σ.
Proof.
  intros H.
  destruct (sample_chain_buffer _ _ _ _ _ _ H) as (buffer & Hvis & Hσ3).
  simpl in Hσ3. exists (firstn (n_chains_per_rank sampler) buffer).
  split; [exact Hσ3|].
  split; [unfold Autoreg._sample_next; rewrite H; simpl; rewrite Hσ3; reflexivity|].
  assert (Hlen : length buffer = (1 * n_chains_per_rank sampler)%nat).
  { rewrite <- (Forall2_length Hvis). apply repeat_length. }
  split; [rewrite length_firstn; lia|].
  rewrite firstn_all2 by lia.
  clear - Hvis. remember (repeat _ _) as init eqn:Hinit.
  assert (Hinit' : Forall (fun row => length row = size (hilbert sampler)) init).
  { subst init. rewrite Forall_forall. intros row Hrow.
    apply repeat_spec in Hrow. subst row. apply repeat_length. }
  clear Hinit. induction Hvis as [|row row' l l' (Hl & _) Hvis IH]; constructor.
  - inversion Hinit'; subst. congruence.
  - apply IH. now inversion Hinit'.
Qed.

(** The error of [_sample_chain], if any, is the error of [_sample_next]. *)
Lemma sample_next_raises sampler variables state e :
  _sample_chain sampler variables state 1 = Raise e ->
  _sample_next sampler variables state = Raise e.
Proof.
  intros H. unfold Autoreg._sample_next. now rewrite H.
Qed.

(** ** Deterministic conditionals *)

Lemma one_hot_cons (w : Q) (t : list Q) (j : nat) :
  one_hot (w :: t) j ->
  match j with
  | O => (0 < w)%Q /\ Forall (fun x => x == 0)%Q t
  | S j' => (w == 0)%Q /\ one_hot t j'
  end.
Proof.
  intros (Hj & Hw & Hother). destruct j as [|j'].
  - split; [exact Hw|]. rewrite Forall_forall. intros x Hx.
    apply In_nth with (d := 0%Q) in Hx. destruct Hx as (n & Hn & Hx).
    rewrite <- Hx. apply (Hother (S n)); simpl; lia.
  - split; [apply (Hother 0%nat); simpl; lia|].
    split; [simpl in Hj; lia|]. split; [exact Hw|].
    intros k Hk Hne. apply (Hother (S k)); simpl; lia.
Qed.

Lemma Qsum_zero (l : list Q) : Forall (fun x => x == 0)%Q l -> (Qsum l == 0)%Q.
Proof.
  induction 1 as [|w t Hw Ht IH]; simpl; [reflexivity|].
  rewrite Hw, IH. ring.
Qed.

Lemma one_hot_prefix_sums (row : list Q) :
  forall j, one_hot row j ->
    Forall (fun w => 0 <= w)%Q row /\
    (Qsum row == nth j row 0)%Q /\
    (forall k, (k < j)%nat -> Qsum (firstn (S k) row) == 0)%Q /\
    (forall k, (j <= k)%nat -> Qsum (firstn (S k) row) == nth j row 0)%Q.
Proof.
  induction row as [|w t IH]; intros j Hoh.
  - destruct Hoh as (Hj & _). simpl in Hj. lia.
  - pose proof (one_hot_cons w t j Hoh) as Hc. destruct j as [|j'].
    + destruct Hc as [Hw Hz].
      assert (Hall : forall l, Forall (fun x => x == 0)%Q l ->
                               Forall (fun x => 0 <= x)%Q l).
      { intros l Hl. eapply Forall_impl; [|exact Hl]. intros x Hx. simpl in Hx.
        rewrite Hx. Lqa.lra. }
      split; [constructor; [Lqa.lra|now apply Hall]|].
      split; [simpl; rewrite (Qsum_zero t Hz); ring|].
      split; [intros k Hk; lia|].
      intros k _. change (firstn (S k) (w :: t)) with (w :: firstn k t).
      simpl nth.
      change (Qsum (w :: firstn k t)) with (w + Qsum (firstn k t))%Q.
      rewrite Qsum_zero; [ring|].
      rewrite Forall_forall in *. intros x Hx. apply Hz.
      rewrite <- (firstn_skipn k t). apply in_or_app. now left.
    + destruct Hc as [Hw Hoh'].
      destruct (IH j' Hoh') as (Hnn & Hsum & Hlt & Hge).
      split; [constructor; [rewrite Hw; Lqa.lra|exact Hnn]|].
      split; [simpl; rewrite Hw, Hsum; ring|].
      split.
      * intros k Hk. change (firstn (S k) (w :: t)) with (w :: firstn k t).
        change (Qsum (w :: firstn k t)) with (w + Qsum (firstn k t))%Q.
        destruct k as [|k]; [simpl; rewrite Hw; ring|].
        rewrite Hlt by lia. rewrite Hw. ring.
      * intros k Hk. change (firstn (S k) (w :: t)) with (w :: firstn k t).
        change (Qsum (w :: firstn k t)) with (w + Qsum (firstn k t))%Q.
        destruct k as [|k]; [lia|].
        rewrite Hge by lia. simpl nth. rewrite Hw. ring.
Qed.

(** On a one-hot row a draw [0 < u < 1] selects the hot cell. *)
Lemma row_index_one_hot (u : Q) (row : list Q) (j : nat) :
  one_hot row j -> (0 < u)%Q -> (u < 1)%Q -> row_index u row = j.
Proof.
  intros Hoh Hu0 Hu1.
  destruct (one_hot_prefix_sums row j Hoh) as (Hnn & Hsum & Hlt & Hge).
  destruct Hoh as (Hj & Hw & _).
  assert (Hpos : (0 < Qsum row)%Q) by (rewrite Hsum; exact Hw).
  destruct (row_index_reaches u row Hnn Hpos Hu1) as (Hidx & Hreach & Hbelow).
  assert (Hr0 : (0 < last (cumsum row) 0 * u)%Q).
  { apply Qmult_lt_0_compat; [rewrite total_is_sum; exact Hpos|exact Hu0]. }
  assert (Hr1 : (last (cumsum row) 0 * u < nth j row 0)%Q).
  { rewrite <- Hsum. rewrite <- total_is_sum. now apply draw_below_total. }
  unfold cumsum in Hreach, Hbelow.
  destruct (lt_eq_lt_dec (row_index u row) j) as [[Hlow|Heq]|Hhigh].
  - exfalso. rewrite nth_cumsum_from in Hreach by exact Hidx.
    rewrite (Hlt _ Hlow) in Hreach. fold (cumsum row) in Hreach. Lqa.lra.
  - exact Heq.
  - exfalso. specialize (Hbelow j Hhigh).
    rewrite nth_cumsum_from in Hbelow by exact Hj.
    rewrite (Hge j (Nat.le_refl j)) in Hbelow. fold (cumsum row) in Hbelow. Lqa.lra.
Qed.

Lemma batch_choice_one_hot_rows
      (hot : list Q -> nat) (k : Key) (a : list Q) (n : nat) :
  (forall k n i, 0 < uniform k n i /\ uniform k n i < 1)%Q ->
  forall σ p, Forall2 (fun σrow prow => one_hot prow (hot σrow)) σ p ->
    forall s,
      map (take 0%Q a)
          (map (fun ir => row_index (uniform k n (fst ir)) (snd ir))
               (enumerate_from s p))
      = map (fun σrow => take 0%Q a (hot σrow)) σ.
Proof.
  intros Hu σ p Hall.
  induction Hall as [|σrow prow σ p Hoh Hall IH]; intros s; simpl; [reflexivity|].
  rewrite IH. f_equal. f_equal.
  destruct (Hu k n s) as [Hu0 Hu1]. now apply row_index_one_hot.
Qed.

Lemma scan_fun_one_hot (hot : list Q -> nat -> nat) sampler
      variables variables' σ c c' k k' index carry y carry' y' :
  (forall k n i, 0 < uniform k n i /\ uniform k n i < 1)%Q ->
  (forall v σ i, Forall2 (fun σrow prow => one_hot prow (hot σrow i))
                         σ (fst (model_apply v σ i))) ->
  scan_fun sampler variables (σ, c, k) index = Ok (carry, y) ->
  scan_fun sampler variables' (σ, c', k') index = Ok (carry', y') ->
  fst (fst carry) = fst (fst carry').
Proof.
  intros Hu Hdet. unfold Autoreg.scan_fun.
  destruct (split2 Key split k) as [[nk sk]|e]; simpl; [|discriminate].
  destruct (split2 Key split k') as [[nk' sk']|e']; simpl; [|discriminate].
  match goal with
  | |- context [model_apply ?v σ index] =>
      pose proof (Hdet v σ index) as Hp; destruct (model_apply v σ index) as [p m]
  end.
  match goal with
  | |- context [model_apply ?v σ index] =>
      pose proof (Hdet v σ index) as Hp'; destruct (model_apply v σ index) as [p' m']
  end.
  simpl in Hp, Hp'.
  unfold batch_choice, choice_indices, enumerate.
  rewrite (batch_choice_one_hot_rows (fun r => hot r index) sk _ _ Hu σ p Hp 0%nat).
  rewrite (batch_choice_one_hot_rows (fun r => hot r index) sk' _ _ Hu σ p' Hp' 0%nat).
  destruct (set_column σ index _) as [σ1|e]; simpl; [|discriminate].
  intros H H'. inversion H; inversion H'; subst. reflexivity.
Qed.

Lemma scan_steps_one_hot (hot : list Q -> nat -> nat) sampler variables variables' :
  (forall k n i, 0 < uniform k n i /\ uniform k n i < 1)%Q ->
  (forall v σ i, Forall2 (fun σrow prow => one_hot prow (hot σrow i))
                         σ (fst (model_apply v σ i))) ->
  forall xs init init' final ys final' ys',
    fst (fst init) = fst (fst init') ->
    scan_steps carry_same (scan_fun sampler variables) init xs = Ok (final, ys) ->
    scan_steps carry_same (scan_fun sampler variables') init' xs = Ok (final', ys') ->
    fst (fst final) = fst (fst final').
Proof.
  intros Hu Hdet.
  induction xs as [|x xs IH]; intros init init' final ys final' ys' Hσ H H';
    simpl in H, H'.
  - inversion H; inversion H'; subst. exact Hσ.
  - destruct (scan_fun sampler variables init x) as [[carry y]|e] eqn:E;
      simpl in H; [|discriminate].
    destruct (scan_fun sampler variables' init' x) as [[carry' y']|e] eqn:E';
      simpl in H'; [|discriminate].
    destruct (carry_same init carry); [|discriminate].
    destruct (carry_same init' carry'); [|discriminate].
    destruct (scan_steps carry_same (scan_fun sampler variables) carry xs)
      as [[f1 ys1]|e] eqn:Es; simpl in H; [|discriminate].
    destruct (scan_steps carry_same (scan_fun sampler variables') carry' xs)
      as [[f2 ys2]|e] eqn:Es'; simpl in H'; [|discriminate].
    inversion H; inversion H'; subst.
    destruct init as [[σ c] k], init' as [[σ' c'] k']. simpl in Hσ. subst σ'.
    eapply IH; [|exact Es|exact Es'].
    eapply scan_fun_one_hot; eassumption.
Qed.

Lemma scan_one_hot (hot : list Q -> nat -> nat) sampler variables variables' :
  (forall k n i, 0 < uniform k n i /\ uniform k n i < 1)%Q ->
  (forall v σ i, Forall2 (fun σrow prow => one_hot prow (hot σrow i))
                         σ (fst (model_apply v σ i))) ->
  forall xs init init' final ys final' ys' (x0 : nat),
    fst (fst init) = fst (fst init') ->
    scan carry_same (scan_fun sampler variables) init xs x0 = Ok (final, ys) ->
    scan carry_same (scan_fun sampler variables') init' xs x0 = Ok (final', ys') ->
    fst (fst final) = fst (fst final').
Proof.
  intros Hu Hdet xs init init' final ys final' ys' x0 Hσ. destruct xs as [|x xs].
  - unfold scan.
    destruct (scan_fun sampler variables init x0) as [r|e]; cbn [bind]; [|discriminate].
    destruct (carry_same init (fst r)); [|discriminate].
    destruct (scan_fun sampler variables' init' x0) as [r'|e]; cbn [bind];
      [|discriminate].
    destruct (carry_same init' (fst r')); [|discriminate].
    intros H H'. inversion H; inversion H'; subst. exact Hσ.
  - apply (scan_steps_one_hot hot sampler variables variables' Hu Hdet (x :: xs)); exact Hσ.
Qed.


End SampleChainMore.

Lemma path_split_length (k : list (nat * nat)) (n : nat) :
  length (Autoreg.path_split k n) = n.
Proof.
  unfold Autoreg.path_split. now rewrite length_map, length_seq.
Qed.

Lemma coin_model_rows (v : Autoreg.Variables unit unit) (σ : list (list Q)) (i : nat) :
  length (fst (Autoreg.coin_model_apply v σ i)) = length σ.
Proof.
  unfold Autoreg.coin_model_apply. simpl. apply length_map.
Qed.

Lemma sample_chain_shape_witness :
  length [[[(-1)%Q; (-1)%Q]]] = 1%nat /\
  Forall (fun step : list (list Q) =>
            length step = 1%nat /\ Forall (fun row => length row = 2%nat) step)
         [[[(-1)%Q; (-1)%Q]]].
Proof.
  destruct (sample_chain_shape (list (nat * nat)) unit unit Autoreg.path_split
              (fun _ _ _ => (1 # 2)%Q) Autoreg.coin_model_init
              Autoreg.coin_model_apply (fun _ => true) (fun _ _ => true) Autoreg.spin_half_sampler
              (Autoreg.mkVars tt None) (Autoreg.mkState []) 1%nat
              [[[(-1)%Q; (-1)%Q]]] (Autoreg.mkState [(3, 0)%nat]) eq_refl)
    as (H1 & H2 & _).
  split; assumption.
Defined.

Lemma sample_chain_local_states_witness :
  Forall (Forall (Forall (fun x => In x [(-1)%Q; 1%Q]))) [[[(-1)%Q; (-1)%Q]]].
Proof.
  apply (sample_chain_local_states (list (nat * nat)) unit unit Autoreg.path_split
           (fun _ _ _ => (1 # 2)%Q) Autoreg.coin_model_init
           Autoreg.coin_model_apply (fun _ => true) (fun _ _ => true) Autoreg.spin_half_sampler
           (Autoreg.mkVars tt None) (Autoreg.mkState []) 1%nat
           [[[(-1)%Q; (-1)%Q]]] (Autoreg.mkState [(3, 0)%nat])).
  - discriminate.
  - reflexivity.
Defined.


Lemma sample_next_is_one_step_witness :
  exists σ,
    Autoreg._sample_next (list (nat * nat)) unit unit Autoreg.path_split
      (fun _ _ _ => (1 # 2)%Q) Autoreg.coin_model_init Autoreg.coin_model_apply
      (fun _ => true) (fun _ _ => true) Autoreg.spin_half_sampler (Autoreg.mkVars tt None)
      (Autoreg.mkState []) = Ok (Autoreg.mkState [(3, 0)%nat], σ) /\
    length σ = 1%nat.
Proof.
  destruct (sample_next_is_one_step (list (nat * nat)) unit unit Autoreg.path_split
              (fun _ _ _ => (1 # 2)%Q) Autoreg.coin_model_init
              Autoreg.coin_model_apply (fun _ => true) (fun _ _ => true) Autoreg.spin_half_sampler
              (Autoreg.mkVars tt None) (Autoreg.mkState [])
              [[[(-1)%Q; (-1)%Q]]] (Autoreg.mkState [(3, 0)%nat]) eq_refl)
    as (σ & _ & H2 & H3 & _).
  exists σ. split; assumption.
Defined.

Lemma up_model_one_hot (v : Autoreg.Variables unit unit) (σ : list (list Q)) (i : nat) :
  Forall2 (fun σrow prow : list Q => Autoreg.one_hot prow 1) σ
          (fst (Autoreg.up_model_apply v σ i)).
Proof.
  unfold Autoreg.up_model_apply. simpl.
  induction σ as [|row σ IH]; simpl; constructor; [exact one_hot_example|exact IH].
Qed.


(** * Further properties of the estimator kernels *)

Section KernelMore.

Import Kernels.
Local Open Scope R_scope.

Variables Pars X : Type.

Lemma C_eq (a b c d : R) : a = c -> b = d -> ((a, b) : C) = (c, d).
Proof. intros -> ->. reflexivity. Qed.

Lemma Cexp_diag (z : C) : Cexp (Csub z z) = (1, 0).
Proof.
  unfold Cexp, Csub. simpl.
  replace (fst z - fst z) with 0 by ring. replace (snd z - snd z) with 0 by ring.
  rewrite exp_0, cos_0, sin_0. apply C_eq; ring.
Qed.

Lemma Cmul_one (z : C) : Cmul z (1, 0) = z.
Proof.
  destruct z as [a b]. unfold Cmul. simpl. apply C_eq; ring.
Qed.

Lemma Csub_shift (x y c : C) : Csub (Cadd x c) (Cadd y c) = Csub x y.
Proof.
  unfold Csub, Cadd. simpl. apply C_eq; ring.
Qed.

Lemma Cmul_Cadd (c x y : C) : Cmul c (Cadd x y) = Cadd (Cmul c x) (Cmul c y).
Proof.
  unfold Cmul, Cadd. simpl. apply C_eq; ring.
Qed.

Lemma Cmul_assoc (c x y : C) : Cmul (Cmul c x) y = Cmul c (Cmul x y).
Proof.
  unfold Cmul. simpl. apply C_eq; ring.
Qed.

Lemma Cabs_sqr_mul (c z : C) : Cabs (Cmul c z) ^ 2 = Cabs c ^ 2 * Cabs z ^ 2.
Proof.
  rewrite !Cabs_sqr. unfold Cmul. simpl. ring.
Qed.

Lemma map2_diag (f : list X -> C) (σ : list X) :
  forall (mel : list C) (σp : list (list X)),
    Forall (fun s => s = σ) σp -> length mel = length σp ->
    map2 Cmul mel (map (fun x => Cexp (Csub x (f σ))) (map f σp)) = mel.
Proof.
  induction mel as [|m mel IH]; intros [|s σp] Hall Hlen; simpl in Hlen;
    try discriminate; [reflexivity|].
  inversion Hall; subst. simpl. rewrite Cexp_diag, Cmul_one. f_equal.
  apply IH; [assumption|lia].
Qed.

(** For an operator that connects each configuration to itself only (every
    connected configuration is [σ]), the local value is the sum of the
    matrix elements, whatever the wavefunction. *)
Theorem local_value_kernel_diagonal
        (logpsi : LogPsi Pars X) (pars : Pars)
        (σ : list X) (σp : list (list X)) (mel : list C) :
  Forall (fun s => s = σ) σp ->
  length mel = length σp ->
  local_value_kernel Pars X logpsi pars σ σp mel = Ok (ComplexVal (Csum mel)) /\
  local_value_squared_kernel Pars X logpsi pars σ σp mel
    = Ok (FloatVal (Cabs (Csum mel) ^ 2)).
Proof.
  intros Hall Hlen.
  assert (Hk : local_value_kernel Pars X logpsi pars σ σp mel
               = Ok (ComplexVal (Csum mel))).
  { rewrite local_value_kernel_row by exact Hlen.
    now rewrite (map2_diag (logpsi pars) σ mel σp Hall Hlen). }
  split; [exact Hk|].
  unfold local_value_squared_kernel. now rewrite Hk.
Qed.

(** Adding a constant to the log-amplitude (rescaling the wavefunction)
    changes none of the three kernels. *)
Theorem kernels_normalisation_invariant
        (logpsi logpsi' : LogPsi Pars X) (pars : Pars) (c : C)
        (σ : list X) (σp : list (list X)) (mel : list C) :
  (forall s, logpsi' pars s = Cadd (logpsi pars s) c) ->
  local_value_kernel Pars X logpsi' pars σ σp mel
    = local_value_kernel Pars X logpsi pars σ σp mel /\
  local_value_squared_kernel Pars X logpsi' pars σ σp mel
    = local_value_squared_kernel Pars X logpsi pars σ σp mel /\
  local_value_op_op_cost Pars X logpsi' pars σ σp mel
    = local_value_op_op_cost Pars X logpsi pars σ σp mel.
Proof.
  intros Hshift.
  assert (Hratio : forall s (l : list (list X)),
            map (fun x => Cexp (Csub x (logpsi' pars s))) (map (logpsi' pars) l)
            = map (fun x => Cexp (Csub x (logpsi pars s))) (map (logpsi pars) l)).
  { intros s l. rewrite !map_map. apply map_ext. intros x.
    now rewrite !Hshift, Csub_shift. }
  assert (Hk : local_value_kernel Pars X logpsi' pars σ σp mel
               = local_value_kernel Pars X logpsi pars σ σp mel).
  { unfold local_value_kernel. now rewrite Hratio. }
  split; [exact Hk|]. split.
  - unfold local_value_squared_kernel. now rewrite Hk.
  - unfold local_value_op_op_cost. now rewrite Hratio.
Qed.

Lemma Csum_scale (c : C) (l : list C) : Csum (map (Cmul c) l) = Cmul c (Csum l).
Proof.
  induction l as [|x l IH]; simpl.
  - unfold Cmul. simpl. apply C_eq; ring.
  - rewrite IH. now rewrite Cmul_Cadd.
Qed.

Lemma map2_scale (c : C) :
  forall (mel ratios : list C),
    map2 Cmul (map (Cmul c) mel) ratios = map (Cmul c) (map2 Cmul mel ratios).
Proof.
  induction mel as [|m mel IH]; intros [|r ratios]; simpl; try reflexivity.
  now rewrite IH, Cmul_assoc.
Qed.

(** The local value is linear in the matrix elements: multiplying every
    matrix element by [c] multiplies the local value by [c] and the squared
    local value by the squared magnitude of [c]. *)
Theorem local_value_kernel_scales
        (logpsi : LogPsi Pars X) (pars : Pars) (c : C)
        (σ : list X) (σp : list (list X)) (mel : list C) :
  length mel = length σp ->
  exists z,
    local_value_kernel Pars X logpsi pars σ σp mel = Ok (ComplexVal z) /\
    local_value_kernel Pars X logpsi pars σ σp (map (Cmul c) mel)
      = Ok (ComplexVal (Cmul c z)) /\
    local_value_squared_kernel Pars X logpsi pars σ σp (map (Cmul c) mel)
      = Ok (FloatVal (Cabs c ^ 2 * Cabs z ^ 2)).
Proof.
  intros Hlen. eexists. split; [now apply local_value_kernel_row|].
  assert (Hk : local_value_kernel Pars X logpsi pars σ σp (map (Cmul c) mel)
               = Ok (ComplexVal
                       (Cmul c (Csum (map2 Cmul mel
                          (map (fun x => Cexp (Csub x (logpsi pars σ)))
                               (map (logpsi pars) σp))))))).
  { rewrite local_value_kernel_row by (now rewrite length_map).
    now rewrite map2_scale, Csum_scale. }
  split; [exact Hk|].
  unfold local_value_squared_kernel. rewrite Hk. cbn [bind pow2 jnp_abs].
  now rewrite Cabs_sqr_mul.
Qed.

(** Matrix elements and connected configurations that disagree in number,
    neither being a single one, make the kernels raise: nothing is silently
    truncated or padded. *)
Theorem local_value_kernel_shape_mismatch
        (logpsi : LogPsi Pars X) (pars : Pars)
        (σ : list X) (σp : list (list X)) (mel : list C) :
  length mel <> length σp ->
  length mel <> 1%nat ->
  length σp <> 1%nat ->
  exists e,
    local_value_kernel Pars X logpsi pars σ σp mel = Raise e /\
    local_value_squared_kernel Pars X logpsi pars σ σp mel = Raise e /\
    local_value_op_op_cost Pars X logpsi pars σ σp mel = Raise e.
Proof.
  intros Hne Hm Hs.
  exists (ValueError "Incompatible shapes for broadcasting").
  assert (Hb : forall ratios : list C, length ratios = length σp ->
            broadcast2 Cmul mel ratios
            = Raise (ValueError "Incompatible shapes for broadcasting")).
  { intros ratios Hr. unfold broadcast2. rewrite Hr.
    destruct (Nat.eqb_spec (length mel) (length σp)) as [E|_]; [contradiction|].
    destruct mel as [|m [|m' mel']]; destruct ratios as [|r [|r' ratios']];
      simpl in *; try reflexivity; congruence. }
  assert (Hk : local_value_kernel Pars X logpsi pars σ σp mel
               = Raise (ValueError "Incompatible shapes for broadcasting")).
  { unfold local_value_kernel. rewrite Hb by (now rewrite !length_map). reflexivity. }
  split; [exact Hk|]. split.
  - unfold local_value_squared_kernel. now rewrite Hk.
  - unfold local_value_op_op_cost. rewrite Hb by (now rewrite !length_map).
    reflexivity.
Qed.

End KernelMore.

Lemma local_value_kernel_diagonal_witness :
  Kernels.local_value_kernel unit nat (fun _ s => (INR (length s), 1)%R) tt
    [1%nat; 2%nat] [[1%nat; 2%nat]; [1%nat; 2%nat]] [(1, 0)%R; (2, 3)%R]
  = Ok (Kernels.ComplexVal (Kernels.Csum [(1, 0)%R; (2, 3)%R])).
Proof.
  apply (local_value_kernel_diagonal unit nat (fun _ s => (INR (length s), 1)%R) tt
           [1%nat; 2%nat] [[1%nat; 2%nat]; [1%nat; 2%nat]] [(1, 0)%R; (2, 3)%R]).
  - repeat constructor.
  - reflexivity.
Defined.

Lemma kernels_normalisation_invariant_witness :
  Kernels.local_value_kernel unit nat
    (fun _ s => Kernels.Cadd (INR (length s), 0)%R (5, 7)%R) tt
    [1%nat] [[1%nat]; []] [(1, 0)%R; (2, 3)%R]
  = Kernels.local_value_kernel unit nat (fun _ s => (INR (length s), 0)%R) tt
      [1%nat] [[1%nat]; []] [(1, 0)%R; (2, 3)%R].
Proof.
  apply (kernels_normalisation_invariant unit nat
           (fun _ s => (INR (length s), 0)%R)
           (fun _ s => Kernels.Cadd (INR (length s), 0)%R (5, 7)%R)
           tt (5, 7)%R [1%nat] [[1%nat]; []] [(1, 0)%R; (2, 3)%R]).
  intros s. reflexivity.
Defined.

Lemma local_value_kernel_scales_witness :
  exists z,
    Kernels.local_value_kernel unit nat (fun _ _ => (0, 0)%R) tt
      [1%nat] [[1%nat]; []] (map (Kernels.Cmul (0, 2)%R) [(1, 0)%R; (2, 3)%R])
    = Ok (Kernels.ComplexVal (Kernels.Cmul (0, 2)%R z)).
Proof.
  destruct (local_value_kernel_scales unit nat (fun _ _ => (0, 0)%R) tt (0, 2)%R
              [1%nat] [[1%nat]; []] [(1, 0)%R; (2, 3)%R] eq_refl)
    as (z & _ & H & _).
  exists z. exact H.
Defined.

Lemma local_value_kernel_shape_mismatch_witness :
  exists e,
    Kernels.local_value_kernel unit nat (fun _ _ => (0, 0)%R) tt
      [1%nat] [[1%nat]; []; []] [(1, 0)%R; (2, 3)%R] = Raise e.
Proof.
  destruct (local_value_kernel_shape_mismatch unit nat (fun _ _ => (0, 0)%R) tt
              [1%nat] [[1%nat]; []; []] [(1, 0)%R; (2, 3)%R])
    as (e & H & _); try (simpl; discriminate).
  exists e. exact H.
Defined.

Lemma local_valuekernel_chunked_rows_witness :
  exists vs,
    Kernels.local_valuekernel_chunked unit nat (fun f _ xs => map f xs)
      (fun _ _ => (0, 0)%R) tt [[1%nat]; [2%nat]]
      (Kernels.Array [[[1%nat]]; [[2%nat]]]) [[(1, 0)%R]; [(2, 3)%R]]
      [("chunk_size"%string, Some 1%nat)] = Ok vs /\
    length vs = 2%nat.
Proof.
  destruct (local_valuekernel_chunked_rows unit nat (fun f _ xs => map f xs)
              (fun _ _ => (0, 0)%R) tt [[1%nat]; [2%nat]]
              [[[1%nat]]; [[2%nat]]] [[(1, 0)%R]; [(2, 3)%R]] (Some 1%nat))
    as (vs & H1 & H2 & _).
  - intros f c xs. reflexivity.
  - repeat constructor.
  - reflexivity.
  - exists vs. split; assumption.
Defined.

(** * Further properties of the expectation driver *)

Section ExpectMore.

Import Kernels Expect.
Local Open Scope nat_scope.

Variables Pars MState X Stats OpData : Type.
Variable get_conn_padded :
  operator OpData -> ndarray X -> result (ndarray X * ndarray C).
Variable nkjax_expect :
  (Pars -> list X -> R) ->
  (Pars -> ndarray X -> ndarray X -> ndarray C -> result (list scalar)) ->
  Pars -> ndarray X -> ndarray X -> ndarray C -> nat -> result (scalar * Stats).

Local Abbreviation State := (MCState Pars MState X).
Local Abbreviation expect :=
  (expect Pars MState X Stats OpData get_conn_padded nkjax_expect).
Local Abbreviation _expect := (_expect Pars MState X Stats nkjax_expect).

Lemma known_dims_count (req : list dim) :
  length (known_dims req) + count_infer req = length req.
Proof.
  unfold count_infer. induction req as [|[|n] req IH]; simpl in *; lia.
Qed.

Lemma prod_dims_inferred (q : nat) (req : list dim) :
  prod_dims (map (fun d => match d with Infer => q | Dim n => n end) req)
  = prod_dims (known_dims req) * q ^ count_infer req.
Proof.
  unfold count_infer. induction req as [|[|n] req IH]; simpl in *.
  - lia.
  - rewrite IH. lia.
  - rewrite IH. lia.
Qed.

(** [reshape] keeps the cells and their number, and gives the array as
    many axes as the request has entries. *)
Lemma reshape_spec {T : Type} (a b : ndarray T) (req : list dim) :
  reshape a req = Ok b ->
  data b = data a /\
  prod_dims (shape b) = prod_dims (shape a) /\
  ndim b = length req.
Proof.
  unfold reshape, ndim. pose proof (known_dims_count req) as Hcount.
  destruct (count_infer req) as [|[|c]] eqn:Ec.
  - destruct (Nat.eqb_spec (prod_dims (known_dims req)) (prod_dims (shape a)))
      as [E|E]; [|discriminate].
    intros H. inversion H; subst. simpl. repeat split; [exact E|lia].
  - destruct (Nat.eqb_spec (prod_dims (known_dims req)) 0) as [E0|E0];
      [discriminate|]. simpl.
    destruct (Nat.eqb_spec (prod_dims (shape a) mod prod_dims (known_dims req)) 0)
      as [Em|Em]; [|discriminate]. simpl.
    intros H. inversion H; subst. simpl. repeat split.
    + rewrite prod_dims_inferred, Ec, Nat.pow_1_r.
      apply Nat.Div0.div_exact in Em. lia.
    + now rewrite length_map.
  - discriminate.
Qed.

(** Whatever the ranks the triple arrives with, a successful [_expect] has
    called the reducer with a 2-D [σ] and a 3-D [σp] that hold the cells of
    the arguments, unchanged and in the same order, and with the leading
    length of [σ] as it arrived for chain count. *)
Theorem expect_normal_form
        (kernel : Kernel Pars X) (model_apply_fun : ModelVars Pars MState -> list X -> C)
        (machine_pow : Z) (pars : Pars) (model_state : MState)
        (σ σp : ndarray X) (mels : ndarray C) (stats : Stats) :
  _expect kernel model_apply_fun machine_pow pars model_state σ σp mels = Ok stats ->
  exists σ' σp' mels' n r,
    nkjax_expect
      (fun w s => (IZR machine_pow * fst (model_apply_fun (w, model_state) s))%R)
      (local_value_vmap Pars X kernel (fun w s => model_apply_fun (w, model_state) s))
      pars σ' σp' mels' n = Ok r /\
    stats = snd r /\
    first_dim (shape σ) = Ok n /\
    ndim σ' = 2 /\ ndim σp' = 3 /\
    data σ' = data σ /\ data σp' = data σp /\ data mels' = data mels /\
    prod_dims (shape σ') = prod_dims (shape σ) /\
    prod_dims (shape σp') = prod_dims (shape σp) /\
    prod_dims (shape mels') = prod_dims (shape mels).
Proof.
  unfold Expect._expect. intros H.
  match type of H with
  | bind ?m _ = _ => destruct m as [σ'|e] eqn:Eσ
  end; cbn [bind] in H; [|discriminate].
  match type of H with
  | bind ?m _ = _ => destruct m as [[σp' mels']|e] eqn:Eσp
  end; cbn [bind] in H; [|discriminate].
  destruct (first_dim (shape σ)) as [n|e] eqn:En; cbn [bind] in H; [|discriminate].
  match type of H with
  | bind ?m _ = _ => destruct m as [r|e] eqn:Er
  end; cbn [bind] in H; [|discriminate].
  inversion H; subst.
  exists σ', σp', mels', n, r.
  split; [exact Er|]. split; [reflexivity|]. split; [reflexivity|].
  assert (Hσ : ndim σ' = 2 /\ data σ' = data σ /\
               prod_dims (shape σ') = prod_dims (shape σ)).
  { destruct (Nat.eqb_spec (ndim σ) 2) as [E2|E2]; simpl in Eσ.
    - inversion Eσ; subst. repeat split. exact E2.
    - destruct (last_dim (shape σ)) as [d|e]; cbn [bind] in Eσ; [|discriminate].
      apply reshape_spec in Eσ. destruct Eσ as (Hd & Hp & Hn).
      repeat split; assumption. }
  assert (Hσp : ndim σp' = 3 /\ data σp' = data σp /\ data mels' = data mels /\
                prod_dims (shape σp') = prod_dims (shape σp) /\
                prod_dims (shape mels') = prod_dims (shape mels)).
  { destruct (Nat.eqb_spec (ndim σp) 3) as [E3|E3]; simpl in Eσp.
    - inversion Eσp; subst. repeat split. exact E3.
    - destruct (first_dim (shape σ')) as [b|e]; cbn [bind] in Eσp; [|discriminate].
      destruct (last_dim (shape σ)) as [d|e]; cbn [bind] in Eσp; [|discriminate].
      destruct (reshape σp _) as [σp1|e] eqn:E1; cbn [bind] in Eσp; [|discriminate].
      destruct (reshape mels _) as [mels1|e] eqn:E2; cbn [bind] in Eσp; [|discriminate].
      inversion Eσp; subst.
      apply reshape_spec in E1. apply reshape_spec in E2.
      destruct E1 as (Hd1 & Hp1 & Hn1), E2 as (Hd2 & Hp2 & _).
      repeat split; assumption. }
  destruct Hσ as (H1 & H2 & H3), Hσp as (H4 & H5 & H6 & H7 & H8).
  repeat split; assumption.
Qed.

(** A 0-dimensional [σ] raises [IndexError] when its last axis is asked
    for; neither [σp] nor the reducer is looked at. *)
Theorem expect_scalar_sigma
        (kernel : Kernel Pars X) (model_apply_fun : ModelVars Pars MState -> list X -> C)
        (machine_pow : Z) (pars : Pars) (model_state : MState)
        (σ σp : ndarray X) (mels : ndarray C) :
  shape σ = [] ->
  _expect kernel model_apply_fun machine_pow pars model_state σ σp mels
  = Raise (IndexError "tuple index out of range").
Proof.
  intros Hs. unfold Expect._expect, ndim. rewrite Hs. reflexivity.
Qed.

(** With matching Hilbert spaces [expect] evaluates the kernel of the
    operator's category on the connected configurations of the right
    operator: the operator itself for a discrete operator, its parent for
    the squared wrapper; an error of [get_conn_padded] is passed on, and a
    category without entry is a dispatch error. *)
Theorem expect_dispatches (vstate : State) (h : Autoreg.Hilbert) :
  hilbert_eqb (vs_hilbert _ _ _ vstate) h = true ->
  (forall body,
     expect vstate (DiscreteOperator OpData h body)
     = (r <- get_conn_padded (DiscreteOperator OpData h body)
                             (samples _ _ _ vstate) ;;
        _expect (local_value_kernel Pars X) (_apply_fun _ _ _ vstate)
                (sampler_machine_pow _ _ _ vstate) (parameters _ _ _ vstate)
                (model_state _ _ _ vstate) (samples _ _ _ vstate) (fst r) (snd r))) /\
  (forall parent,
     expect vstate (Squared OpData h parent)
     = (r <- get_conn_padded parent (samples _ _ _ vstate) ;;
        _expect (local_value_squared_kernel Pars X) (_apply_fun _ _ _ vstate)
                (sampler_machine_pow _ _ _ vstate) (parameters _ _ _ vstate)
                (model_state _ _ _ vstate) (samples _ _ _ vstate) (fst r) (snd r))) /\
  expect vstate (OtherOperator OpData h)
  = Raise (NotFoundLookupError "no matching method").
Proof.
  intros Heq.
  assert (Hchk : check_hilbert (vs_hilbert _ _ _ vstate) h = Ok tt).
  { unfold check_hilbert. now rewrite Heq. }
  split; [|split].
  - intros body. unfold Expect.expect, get_configs, get_configs_DiscreteOperator.
    simpl op_hilbert. rewrite Hchk. cbn [bind].
    destruct (get_conn_padded _ _) as [[σp mels]|e]; reflexivity.
  - intros parent. unfold Expect.expect, get_configs, get_configs_Squared.
    rewrite Hchk. cbn [bind].
    destruct (get_conn_padded _ _) as [[σp mels]|e]; reflexivity.
  - reflexivity.
Qed.

Lemma Csum_single (m : C) : Csum [m] = m.
Proof.
  destruct m as [a b]. unfold Csum, Cadd. simpl. apply C_eq; ring.
Qed.

Lemma local_value_kernel_self (logpsi : LogPsi Pars X) (pars : Pars)
      (s : list X) (m : C) :
  local_value_kernel Pars X logpsi pars s [s] [m] = Ok (ComplexVal m).
Proof.
  rewrite local_value_kernel_row by reflexivity.
  rewrite (map2_diag X (logpsi pars) s [m] [s]) by (repeat constructor).
  now rewrite Csum_single.
Qed.

Lemma slices_S {T : Type} (c w : nat) (l : list T) :
  slices (S c) w l = firstn w l :: slices c w (skipn w l).
Proof. reflexivity. Qed.

Lemma slices_0 {T : Type} (w : nat) (l : list T) : slices 0 w l = [].
Proof. reflexivity. Qed.

Lemma vmap_diagonal_rows (logpsi : LogPsi Pars X) (pars : Pars) (N : nat) :
  forall (ms : list C) (cells : list X),
    sequence
      (map2 (fun s pm => local_value_kernel Pars X logpsi pars s
                           (slices 1 N (fst pm)) (snd pm))
            (slices (length ms) N cells)
            (combine (slices (length ms) N cells) (slices (length ms) 1 ms)))
    = Ok (map ComplexVal ms).
Proof.
  induction ms as [|m ms IH]; intros cells; [reflexivity|].
  change (length (m :: ms)) with (S (length ms)).
  rewrite !slices_S.
  change (firstn 1 (m :: ms)) with [m]. change (skipn 1 (m :: ms)) with ms.
  cbn [combine map2 sequence]. cbn [fst snd].
  rewrite slices_S, slices_0, firstn_firstn, Nat.min_id.
  rewrite local_value_kernel_self. cbn [bind].
  rewrite IH. reflexivity.
Qed.

(** For a diagonal operator (each sample connected to itself only, with one
    matrix element) the vectorised kernel returns the matrix elements, one
    per sample, whatever the model: the identity gives the local value 1
    at every sample. *)
Theorem local_value_vmap_diagonal
        (logpsi : LogPsi Pars X) (pars : Pars) (B N : nat)
        (cells : list X) (ms : list C) :
  length ms = B ->
  local_value_vmap Pars X (local_value_kernel Pars X) logpsi pars
    (mkArray [B; N] cells) (mkArray [B; 1; N] cells) (mkArray [B; 1] ms)
  = Ok (map ComplexVal ms).
Proof.
  intros <-. unfold local_value_vmap. cbn [shape data].
  rewrite Nat.eqb_refl. cbn [andb]. rewrite Nat.mul_1_l.
  apply vmap_diagonal_rows.
Qed.

End ExpectMore.

Lemma expect_normal_form_witness :
  exists σ' σp' mels' n r,
    Expect.chain_count_reducer
      (fun w s => (IZR 2 * fst (Expect.constant_model (w, tt) s))%R)
      (Expect.local_value_vmap unit unit (Kernels.local_value_kernel unit unit)
         (fun w s => Expect.constant_model (w, tt) s))
      tt σ' σp' mels' n = Ok r /\
    1%nat = snd r /\
    Expect.first_dim [1; 2; 1]%nat = Ok n /\
    Expect.ndim σ' = 2%nat /\ Expect.ndim σp' = 3%nat /\
    Expect.data σ' = [tt; tt] /\ Expect.data σp' = [tt; tt] /\
    Expect.data mels' = [(1, 0)%R; (1, 0)%R] /\
    Expect.prod_dims (Expect.shape σ') = 2%nat /\
    Expect.prod_dims (Expect.shape σp') = 2%nat /\
    Expect.prod_dims (Expect.shape mels') = 2%nat.
Proof.
  apply (expect_normal_form unit unit unit nat Expect.chain_count_reducer
           (Kernels.local_value_kernel unit unit) Expect.constant_model 2 tt tt
           (Expect.mkArray [1; 2; 1]%nat [tt; tt])
           (Expect.mkArray [1; 2; 1; 1]%nat [tt; tt])
           (Expect.mkArray [1; 2; 1]%nat [(1, 0)%R; (1, 0)%R]) 1%nat).
  reflexivity.
Defined.

Lemma expect_scalar_sigma_witness :
  Expect._expect unit unit unit nat Expect.chain_count_reducer
    (Kernels.local_value_kernel unit unit) Expect.constant_model 2 tt tt
    (Expect.mkArray [] [tt]) (Expect.mkArray [1; 1; 1]%nat [tt])
    (Expect.mkArray [1; 1]%nat [(1, 0)%R])
  = Raise (IndexError "tuple index out of range").
Proof.
  apply (expect_scalar_sigma unit unit unit nat Expect.chain_count_reducer
           (Kernels.local_value_kernel unit unit) Expect.constant_model 2 tt tt
           (Expect.mkArray [] [tt]) (Expect.mkArray [1; 1; 1]%nat [tt])
           (Expect.mkArray [1; 1]%nat [(1, 0)%R])).
  reflexivity.
Defined.

Lemma expect_dispatches_witness :
  Expect.expect unit unit unit nat unit Expect.unreachable_conn
    Expect.chain_count_reducer Expect.two_site_state
    (Expect.DiscreteOperator unit (Autoreg.mkHilbert 2 [-1; 1]%Q) tt)
  = Raise (ValueError "get_conn_padded was called").
Proof.
  destruct (expect_dispatches unit unit unit nat unit Expect.unreachable_conn
              Expect.chain_count_reducer Expect.two_site_state
              (Autoreg.mkHilbert 2 [-1; 1]%Q) eq_refl) as (H & _ & _).
  rewrite (H tt). reflexivity.
Defined.

Lemma local_value_vmap_diagonal_witness :
  Expect.local_value_vmap unit nat (Kernels.local_value_kernel unit nat)
    (fun _ s => (INR (length s), 0)%R) tt
    (Expect.mkArray [2; 2]%nat [1; 2; 3; 4]%nat)
    (Expect.mkArray [2; 1; 2]%nat [1; 2; 3; 4]%nat)
    (Expect.mkArray [2; 1]%nat [(1, 0)%R; (1, 0)%R])
  = Ok [Kernels.ComplexVal (1, 0)%R; Kernels.ComplexVal (1, 0)%R].
Proof.
  apply (local_value_vmap_diagonal unit nat (fun _ s => (INR (length s), 0)%R) tt
           2%nat 2%nat [1; 2; 3; 4]%nat [(1, 0)%R; (1, 0)%R]).
  reflexivity.
Defined.

(** * Properties of the particle descriptor *)

Section ParticleFacts.

Import ParticleSpace.

Variable super_init : list Q -> list bool -> result unit.

(** A constructed [Particle] has [N] particles and size [N] times the number
    of spatial dimensions; a scalar [L] stands for one dimension (size [N]);
    a [bool] given for [pbc] is repeated once per dimension, while a sequence
    given for [pbc] is stored as it is, whatever its length. *)
Theorem particle_init_normalises (N : Z) (L : extent_arg) (pbc : pbc_arg)
        (self : Particle) :
  __init__ super_init N L pbc = Ok self ->
  n_particles self = N /\
  size self = (N * Z.of_nat (length (_L self)))%Z /\
  (forall l, L = ScalarL l -> _L self = [l] /\ size self = N) /\
  (forall ls, L = SeqL ls -> _L self = ls) /\
  (forall b, pbc = BoolPbc b ->
     length (_pbc self) = length (_L self) /\ Forall (eq b) (_pbc self)) /\
  (forall bs, pbc = SeqPbc bs -> _pbc self = bs) /\
  _attrs self = (N, _L self, _pbc self).
Proof.
  unfold __init__. intros H.
  destruct (super_init _ _) as [[]|e]; simpl in H; [|discriminate].
  inversion H; subst. unfold size, n_particles, _attrs. cbn [_N _L _pbc].
  split; [reflexivity|]. split; [reflexivity|].
  split; [intros l0 E; subst L; split; [reflexivity|simpl; lia]|].
  split; [intros ls E; subst L; reflexivity|].
  split; [|split; [intros bs E; subst pbc; reflexivity|reflexivity]].
  intros b E. subst pbc. split; [apply repeat_length|].
  rewrite Forall_forall. intros x Hx. symmetry. eapply repeat_spec. exact Hx.
Qed.

End ParticleFacts.

Lemma particle_init_normalises_witness :
  exists self,
    ParticleSpace.__init__ (fun _ _ => Ok tt) 3 (ParticleSpace.SeqL [1; 2]%Q)
      (ParticleSpace.BoolPbc true) = Ok self /\
    ParticleSpace.size self = 6%Z /\
    ParticleSpace._pbc self = [true; true].
Proof.
  eexists. split; [reflexivity|].
  destruct (particle_init_normalises (fun _ _ => Ok tt) 3
              (ParticleSpace.SeqL [1; 2]%Q) (ParticleSpace.BoolPbc true)
              _ eq_refl) as (_ & H & _).
  split; [exact H|reflexivity].
Defined.
